(** * ObjectPool: a chunked, recycling object pool (Memory.cc)

    A shallow embedding of the class template [ObjectPool<T, Allocator>] of
    [Memory.cc] and the properties of its acquire / release protocol.

    Modelling conventions.
    - [size_t] is a 64-bit unsigned integer: a [Z] in [0, 2^64) whose
      arithmetic wraps ([wrap]).
    - A [T*] is a byte address, a [Z]; incrementing a [T*] adds
      [sizeof(T)], the allocator's [sizeof_value].
    - [std::vector<T*>] is a [list Z]; [back] is [last], [pop_back] is
      [removelast], [push_back] appends at the end.  The storage of the
      vectors themselves and of the control block of a [shared_ptr] is taken
      to be available (these operations do not throw).
    - Assertions are enabled ([NDEBUG] is not defined), and [double] is
      IEEE-754 binary64 with round-to-nearest-even.
    - The [Allocator] template parameter is an interface ([Class Allocator]);
      [allocate] returning [None] stands for the allocator throwing.
    - A C++ exception is a [Threw] result that carries the state the program
      is left in; undefined behaviour is the result [Undefined].
    - Storage holding constructed objects is a [gmap Z T]; the outstanding
      [std::shared_ptr] handles are the list of the addresses they manage. *)

From Stdlib Require Import ZArith Lia.
From stdpp Require Import base list list_numbers gmap strings.

Local Open Scope Z_scope.

(** ** Machine integers *)

(** [size_t] arithmetic is modulo [2^64]. *)
Definition size_modulus : Z := 2 ^ 64.

Definition wrap (x : Z) : Z := x mod size_modulus.

(** ** Binary64 arithmetic on integral values

    The destructor's assertion computes in [double].  Every value that occurs
    there is a non-negative integer, so a [double] is modelled by the integer
    it denotes, [None] standing for +infinity. *)

(** Round a non-negative integer to the nearest number with a 53-bit
    significand, ties to even. *)
Definition round53 (x : Z) : Z :=
  if x <? 2 ^ 53 then x
  else
    let e := Z.log2 x - 52 in
    let q := x / 2 ^ e in
    let r := x mod 2 ^ e in
    let half := 2 ^ (e - 1) in
    if r <? half then q * 2 ^ e
    else if half <? r then (q + 1) * 2 ^ e
    else if Z.even q then q * 2 ^ e
    else (q + 1) * 2 ^ e.

Definition double := option Z.

(** Rounding of an exact non-negative result; results from [2^1024] on
    overflow to +infinity. *)
Definition to_double (x : Z) : double :=
  let y := round53 x in
  if 2 ^ 1024 <=? y then None else Some y.

Definition double_lift (f : Z → Z) (d : double) : double :=
  match d with
  | Some x => to_double (f x)
  | None => None
  end.

(** [std::pow(2, n)] for an unsigned integer [n]. *)
Definition double_pow2 (n : Z) : double :=
  if 1024 <=? n then None else Some (2 ^ n).

(** ** Constructor arguments and how they are passed *)

(** Value category of an argument expression. *)
Inductive category := lvalue | xvalue | prvalue.

(** An argument as the constructor of [T] finally sees it: its value, its
    value category, and how many times the object was copy- or
    move-constructed on the way from the caller's expression. *)
Record Arg (V : Type) := MkArg {
  arg_value : V;
  arg_category : category;
  arg_copies : nat;
  arg_moves : nat
}.
Global Arguments MkArg {V}.
Global Arguments arg_value {V}.
Global Arguments arg_category {V}.
Global Arguments arg_copies {V}.
Global Arguments arg_moves {V}.

(** The caller's expression itself, nothing done to it yet. *)
Definition caller_arg {V} (c : category) (v : V) : Arg V := MkArg v c 0 0.

(** [acquireObject(Args... args)] declares its parameters by value: a
    parameter is copy-constructed from an lvalue, move-constructed from an
    xvalue and initialised directly by a prvalue.  Inside the function the
    parameter is a named object, an lvalue. *)
Definition bind_by_value {V} (a : Arg V) : Arg V :=
  match arg_category a with
  | lvalue => MkArg (arg_value a) lvalue (S (arg_copies a)) (arg_moves a)
  | xvalue => MkArg (arg_value a) lvalue (arg_copies a) (S (arg_moves a))
  | prvalue => MkArg (arg_value a) lvalue (arg_copies a) (arg_moves a)
  end.

(** [std::forward<Args>(args)] with [Args] a non-reference type is a cast to
    [Args&&]: an xvalue naming the parameter. *)
Definition forward {V} (a : Arg V) : Arg V :=
  MkArg (arg_value a) xvalue (arg_copies a) (arg_moves a).

(** What a perfectly forwarding signature ([Args&&... args]) would hand to
    the constructor: the caller's expression, untouched. *)
Definition perfectly_forwarded {V} (a : Arg V) : Arg V := a.

(** ** The allocator interface *)

(** An allocator for objects of type [T].  [sizeof_value] is [sizeof(T)];
    [allocate a n] is [a.allocate(n)]: the address of storage for [n] objects
    and the allocator afterwards, or [None] when it throws;
    [deallocate a p n] is [a.deallocate(p, n)]. *)
Class Allocator (A : Type) := {
  sizeof_value : Z;
  allocate : A → Z → option (Z * A);
  deallocate : A → Z → Z → A
}.

(** ** Allocators that behave

    What the pool relies on from its allocator: storage handed out is fresh,
    stays handed out until it is given back, and lies in the 64-bit address
    space.  [used a x] holds of the slot addresses of the blocks that [a] has
    handed out. *)
Class LawfulAllocator (A : Type) `{Allocator A} := {
  used : A → Z → Prop;
  sizeof_positive : 0 < sizeof_value;
  allocate_fresh : ∀ a n b a' i,
    allocate a n = Some (b, a') → 0 ≤ i < n → ¬ used a (b + i * sizeof_value);
  allocate_keeps : ∀ a n b a' x,
    allocate a n = Some (b, a') → used a x → used a' x;
  allocate_marks : ∀ a n b a' i,
    allocate a n = Some (b, a') → 0 ≤ i < n → used a' (b + i * sizeof_value);
  used_addressable : ∀ a x, used a x → 0 ≤ x < size_modulus
}.

(** ** Results *)

Inductive exn := bad_alloc | constructor_failure.

Inductive result (S R : Type) :=
  | Returned (r : R) (s : S)
  | Threw (e : exn) (s : S)
  | Undefined.
Global Arguments Returned {S R}.
Global Arguments Threw {S R}.
Global Arguments Undefined {S R}.

Section ObjectPool.

Context {T V A : Type} `{Allocator A}.

(** [T { args... }]; [None] when the constructor throws. *)
Variable construct : list (Arg V) → option T.

Record ObjectPool := MkPool {
  m_pool : list Z;
  m_freeObjects : list Z;
  m_newChunkSize : Z;
  m_allocator : A
}.

Definition ms_initialChunkSize : Z := 5.

(** [explicit ObjectPool(const Allocator& allocator)], and the default
    constructor with a default-constructed allocator. *)
Definition new_ObjectPool (allocator : A) : ObjectPool :=
  MkPool [] [] ms_initialChunkSize allocator.

(** [std::iota(first, first + n, firstNewObject)] on [T*] values. *)
Definition iota (firstNewObject n : Z) : list Z :=
  (λ i, firstNewObject + i * sizeof_value) <$> seqZ 0 n.

(** [addChunk].  The value returned is the chunk just obtained and the
    size requested for it (the function itself returns [void]). *)
Definition addChunk (p : ObjectPool) : result ObjectPool (Z * Z) :=
  match allocate (m_allocator p) (m_newChunkSize p) with
  | None => Threw bad_alloc p
  | Some (firstNewObject, a') =>
      let pool' := m_pool p ++ [firstNewObject] in
      let oldFreeObjectsSize := Z.of_nat (length (m_freeObjects p)) in
      let newSize := wrap (oldFreeObjectsSize + m_newChunkSize p) in
      if newSize <? oldFreeObjectsSize then Undefined
      else
        Returned (firstNewObject, m_newChunkSize p)
          (MkPool pool'
             (m_freeObjects p ++ iota firstNewObject (newSize - oldFreeObjectsSize))
             (wrap (m_newChunkSize p * 2))
             a')
  end.

(** The pool together with what surrounds it: the objects constructed in
    its storage, the handles not yet released, and the record of the
    chunks obtained from the allocator (address, capacity). *)
Record World := MkWorld {
  pool : ObjectPool;
  objects : gmap Z T;
  handles : list Z;
  allocated : list (Z * Z)
}.

Definition new_World (allocator : A) : World :=
  MkWorld (new_ObjectPool allocator) ∅ [] [].

(** [if (m_freeObjects.empty()) { addChunk(); }] *)
Definition grow_if_empty (w : World) : result World unit :=
  match m_freeObjects (pool w) with
  | [] =>
      match addChunk (pool w) with
      | Returned c p' =>
          Returned tt (MkWorld p' (objects w) (handles w) (allocated w ++ [c]))
      | Threw e p' =>
          Threw e (MkWorld p' (objects w) (handles w) (allocated w))
      | Undefined => Undefined
      end
  | _ :: _ => Returned tt w
  end.

(** [acquireObject].  The result is the address the returned handle
    manages. *)
Definition acquireObject (w : World) (args : list (Arg V)) : result World Z :=
  let args := bind_by_value <$> args in
  match grow_if_empty w with
  | Undefined => Undefined
  | Threw e w' => Threw e w'
  | Returned _ w1 =>
      let p := pool w1 in
      match last (m_freeObjects p) with
      | None => Undefined
      | Some object =>
          match construct (forward <$> args) with
          | None => Threw constructor_failure w1
          | Some v =>
              Returned object
                (MkWorld
                   (MkPool (m_pool p) (removelast (m_freeObjects p))
                      (m_newChunkSize p) (m_allocator p))
                   (<[object := v]> (objects w1))
                   (handles w1 ++ [object])
                   (allocated w1))
          end
      end
  end.

(** Remove one occurrence of a handle. *)
Fixpoint drop_handle (object : Z) (hs : list Z) : list Z :=
  match hs with
  | [] => []
  | h :: hs' => if decide (h = object) then hs' else h :: drop_handle object hs'
  end.

(** The deleter of the [shared_ptr], run when the last owner of the handle
    on [object] lets go of it.  Only an outstanding handle can be
    released. *)
Definition deleter (w : World) (object : Z) : option World :=
  if decide (object ∈ handles w) then
    let p := pool w in
    Some (MkWorld
            (MkPool (m_pool p) (m_freeObjects p ++ [object])
               (m_newChunkSize p) (m_allocator p))
            (delete object (objects w))
            (drop_handle object (handles w))
            (allocated w))
  else None.

(** The deallocation loop of the destructor: the calls made, in order, and
    the allocator afterwards. *)
Fixpoint deallocate_chunks (a : A) (chunkSize : Z) (chunks : list Z)
  : list (Z * Z) * A :=
  match chunks with
  | [] => ([], a)
  | chunk :: rest =>
      let '(calls, a') :=
        deallocate_chunks (deallocate a chunk chunkSize) (wrap (chunkSize * 2)) rest in
      ((chunk, chunkSize) :: calls, a')
  end.

(** [free == ms_initialChunkSize * (std::pow(2, chunks) - 1)] for two
    [size_t] values, evaluated in [double] as C++ does. *)
Definition sizes_agree (free chunks : Z) : bool :=
  let lhs := to_double free in
  let rhs :=
    double_lift (λ x, ms_initialChunkSize * x)
      (double_lift (λ x, x - 1) (double_pow2 chunks)) in
  match lhs, rhs with
  | Some x, Some y => x =? y
  | _, _ => false
  end.

(** [m_freeObjects.size() == ms_initialChunkSize * (std::pow(2, m_pool.size()) - 1)] *)
Definition teardown_check (p : ObjectPool) : bool :=
  sizes_agree (Z.of_nat (length (m_freeObjects p))) (Z.of_nat (length (m_pool p))).

(** [~ObjectPool] with assertions enabled: [None] when the assertion fails
    (the program aborts), otherwise the deallocations made, in order, and
    the allocator afterwards. *)
Definition destroy_ObjectPool (p : ObjectPool) : option (list (Z * Z) * A) :=
  if teardown_check p then
    Some (deallocate_chunks (m_allocator p) ms_initialChunkSize (m_pool p))
  else None.

(** [ObjectPool(ObjectPool&& src) noexcept = default]: member-wise move.
    A moved-from [std::vector] is empty; moving a [size_t] or an allocator
    copies it.  The result is the new pool and [src] as it is left. *)
Definition move_ObjectPool (src : ObjectPool) : ObjectPool * ObjectPool :=
  (MkPool (m_pool src) (m_freeObjects src) (m_newChunkSize src) (m_allocator src),
   MkPool [] [] (m_newChunkSize src) (m_allocator src)).

(** ** Runs of a pool's client *)

Inductive op :=
  | Acquire (args : list (Arg V))
  | Release (object : Z).

(** One operation; an exception leaves the client running in the state the
    operation left behind. *)
Definition step (w : World) (o : op) : option World :=
  match o with
  | Acquire args =>
      match acquireObject w args with
      | Returned _ w' => Some w'
      | Threw _ w' => Some w'
      | Undefined => None
      end
  | Release object => deleter w object
  end.

Fixpoint run (w : World) (ops : list op) : option World :=
  match ops with
  | [] => Some w
  | o :: ops' =>
      match step w o with
      | Some w' => run w' ops'
      | None => None
      end
  end.

(** Acquire one object per argument list, without releasing any; the
    addresses obtained, in order.  [None] as soon as one acquisition does not
    return. *)
Fixpoint acquire_all (w : World) (argss : list (list (Arg V)))
  : option (list Z * World) :=
  match argss with
  | [] => Some ([], w)
  | args :: rest =>
      match acquireObject w args with
      | Returned object w' =>
          match acquire_all w' rest with
          | Some (objs, w'') => Some (object :: objs, w'')
          | None => None
          end
      | _ => None
      end
  end.

(** Sum of the capacities of the chunks obtained so far. *)
Definition total_capacity (chunks : list (Z * Z)) : Z :=
  foldr (λ c acc, c.2 + acc) 0 chunks.

(** ** The outcomes of the operations *)

(** The world after a growth event that obtained the chunk at [b]. *)
Definition grown (w : World) (b : Z) (a' : A) : World :=
  MkWorld
    (MkPool (m_pool (pool w) ++ [b]) (iota b (wrap (m_newChunkSize (pool w))))
       (wrap (m_newChunkSize (pool w) * 2)) a')
    (objects w) (handles w)
    (allocated w ++ [(b, m_newChunkSize (pool w))]).

(** The world after the last free slot has been handed out holding [v]. *)
Definition taken (w : World) (free' : list Z) (object : Z) (v : T) : World :=
  MkWorld
    (MkPool (m_pool (pool w)) free' (m_newChunkSize (pool w)) (m_allocator (pool w)))
    (<[object := v]> (objects w)) (handles w ++ [object]) (allocated w).

(** The three ways [grow_if_empty] can end. *)
Inductive grow_spec (w : World) : result World unit → Prop :=
  | grow_not_needed :
      m_freeObjects (pool w) ≠ [] → grow_spec w (Returned tt w)
  | grow_done b a' :
      m_freeObjects (pool w) = [] →
      allocate (m_allocator (pool w)) (m_newChunkSize (pool w)) = Some (b, a') →
      grow_spec w (Returned tt (grown w b a'))
  | grow_failed :
      m_freeObjects (pool w) = [] →
      allocate (m_allocator (pool w)) (m_newChunkSize (pool w)) = None →
      grow_spec w (Threw bad_alloc w).

(** The four ways [acquireObject] can end. *)
Inductive acquire_spec (w : World) (args : list (Arg V)) : result World Z → Prop :=
  | acquire_returns w1 free' object v :
      grow_if_empty w = Returned tt w1 →
      m_freeObjects (pool w1) = free' ++ [object] →
      construct (forward <$> (bind_by_value <$> args)) = Some v →
      acquire_spec w args (Returned object (taken w1 free' object v))
  | acquire_bad_alloc :
      grow_if_empty w = Threw bad_alloc w →
      acquire_spec w args (Threw bad_alloc w)
  | acquire_constructor_throws w1 free' object :
      grow_if_empty w = Returned tt w1 →
      m_freeObjects (pool w1) = free' ++ [object] →
      construct (forward <$> (bind_by_value <$> args)) = None →
      acquire_spec w args (Threw constructor_failure w1)
  | acquire_undefined w1 :
      grow_if_empty w = Returned tt w1 →
      m_freeObjects (pool w1) = [] →
      acquire_spec w args Undefined.

(** ** Invariants of the worlds a client can reach *)

(** Number of growth events so far. *)
Definition growth_events (w : World) : Z := Z.of_nat (length (allocated w)).

(** Size requested by growth event number [i], counting from 0, in [size_t]
    arithmetic. *)
Definition chunk_size (i : Z) : Z := wrap (ms_initialChunkSize * 2 ^ i).

(** Holds whatever the allocator does. *)
Record consistent (w : World) : Prop := {
  consistent_count :
    Z.of_nat (length (m_freeObjects (pool w))) + Z.of_nat (length (handles w))
    = total_capacity (allocated w);
  consistent_chunks : m_pool (pool w) = (allocated w).*1;
  consistent_capacities :
    (allocated w).*2 = chunk_size <$> seqZ 0 (growth_events w);
  consistent_next : m_newChunkSize (pool w) = chunk_size (growth_events w)
}.

(** Holds when the allocator is lawful: slots are distinct addresses that the
    allocator has handed out, and the growth sequence has not left the range
    of [size_t]. *)
Record sound `{!LawfulAllocator A} (w : World) : Prop := {
  sound_consistent : consistent w;
  sound_distinct : NoDup (m_freeObjects (pool w) ++ handles w);
  sound_used : ∀ x,
    x ∈ m_freeObjects (pool w) ++ handles w → used (m_allocator (pool w)) x;
  sound_fits : ms_initialChunkSize * 2 ^ growth_events w < size_modulus
}.

End ObjectPool.

Global Arguments ObjectPool A : clear implicits.
Global Arguments World T A : clear implicits.

(** ** A concrete instance: a bump allocator and a two-field class *)

(** A bump allocator for [Example] objects over the region
    [bump_next, bump_limit): it serves requests from the front of the region
    and throws once the region is exhausted. *)
Record Bump := MkBump { bump_next : Z; bump_limit : Z }.

(** [sizeof(Example)] below: an [int], padding, and a [std::string]. *)
Definition sizeof_Example : Z := 40.

Definition bump_allocate (a : Bump) (n : Z) : option (Z * Bump) :=
  let next' := bump_next a + n * sizeof_Example in
  if decide (0 ≤ n ∧ 0 ≤ bump_next a ∧ next' ≤ bump_limit a ∧ bump_limit a ≤ size_modulus)
  then Some (bump_next a, MkBump next' (bump_limit a))
  else None.

Global Instance Bump_Allocator : Allocator Bump := {|
  sizeof_value := sizeof_Example;
  allocate := bump_allocate;
  deallocate := λ a _ _, a
|}.

Inductive value := VInt (n : Z) | VString (s : string).

(** [struct Example { int number; std::string text; }] with a constructor
    from [(int, std::string)] that throws on a negative number. *)
Record Example := MkExample { number : Z; text : string }.

Definition construct_Example (args : list (Arg value)) : option Example :=
  match args with
  | [a; b] =>
      match arg_value a, arg_value b with
      | VInt n, VString s => if n <? 0 then None else Some (MkExample n s)
      | _, _ => None
      end
  | _ => None
  end.

(** A class whose constructor records the arguments exactly as it receives
    them. *)
Definition Probe : Type := list (Arg value).

Definition construct_Probe (args : list (Arg value)) : option Probe := Some args.

(** The slot addresses the bump allocator has handed out lie below
    [bump_next]. *)
Definition bump_used (a : Bump) (x : Z) : Prop :=
  0 ≤ x < bump_next a ∧ x < size_modulus.

(** The region from address 4096 up to address 1048576. *)
Definition bump0 : Bump := MkBump 4096 1048576.

(** [acquireObject(42, s)] with [std::string s{"x"}]. *)
Definition args_42_x : list (Arg value) :=
  [caller_arg prvalue (VInt 42); caller_arg lvalue (VString "x")].

(** [acquireObject(-1, s)]: the constructor of [Example] throws. *)
Definition args_negative : list (Arg value) :=
  [caller_arg prvalue (VInt (-1)); caller_arg lvalue (VString "x")].

(** Seven acquisitions, then the release of two of the handles. *)
Definition seven_then_two : list (@op value) :=
  replicate 7 (Acquire args_42_x) ++ [Release 4176; Release 4656].

(** One acquisition and the release of its handle. *)
Definition one_cycle : list (@op value) := [Acquire args_42_x; Release 4256].

(** The pool after [one_cycle]: one chunk of five slots, all free. *)
Definition cycled_pool : ObjectPool Bump :=
  MkPool [4096] [4096; 4136; 4176; 4216; 4256] 10 (MkBump 4296 1048576).

(** ** The slots of the chunks, and the benchmark driver *)

Section Driver.

Context {A : Type} `{Allocator A}.

(** The slot addresses of the chunks obtained, chunk by chunk. *)
Definition all_slots (chunks : list (Z * Z)) : list Z :=
  chunks ≫= λ c, iota c.1 c.2.

(** [class ExpensiveObject]: its only constructor takes no argument and
    leaves [m_data] uninitialised, so an object carries nothing to observe. *)
Inductive ExpensiveObject := an_ExpensiveObject.

(** [ExpensiveObject() {}].  No argument can be passed: the argument lists
    range over the empty type. *)
Definition construct_ExpensiveObject (args : list (Arg Empty_set))
  : option ExpensiveObject :=
  Some an_ExpensiveObject.

(** [getExpensiveObject]: [pool.acquireObject()]. *)
Definition getExpensiveObject (w : World ExpensiveObject A)
  : result (World ExpensiveObject A) Z :=
  acquireObject construct_ExpensiveObject w [].

(** The first loop of [main]: every iteration gets an object from the pool,
    and the handle goes out of scope at the end of the iteration, which runs
    its deleter.  An exception leaves the loop. *)
Fixpoint pool_loop (iterations : nat) (w : World ExpensiveObject A)
  : result (World ExpensiveObject A) unit :=
  match iterations with
  | O => Returned tt w
  | S iterations' =>
      match getExpensiveObject w with
      | Returned object w1 =>
          match deleter w1 object with
          | Some w2 => pool_loop iterations' w2
          | None => Undefined
          end
      | Threw e w' => Threw e w'
      | Undefined => Undefined
      end
  end.

Definition NumberOfIterations : Z := 500000.


End Driver.

(** ** More invariants of the worlds a client can reach *)

Section MoreInvariants.

Context {T A : Type} `{Allocator A}.

(** The slots of the pool are the slots of its chunks. *)
Definition partitioned (w : World T A) : Prop :=
  consistent w
  ∧ m_freeObjects (pool w) ++ handles w ≡ₚ all_slots (allocated w).

(** Objects are constructed exactly where a handle is outstanding. *)
Definition tracked (w : World T A) : Prop :=
  ∀ x, is_Some (objects w !! x) ↔ x ∈ handles w.

(** Soundness together with the tracking of objects. *)
Definition well `{!LawfulAllocator A} (w : World T A) : Prop :=
  sound w ∧ tracked w.

(** The free list is shorter than the chunk obtained last. *)
Definition snug (w : World T A) : Prop :=
  growth_events w = 0
  ∨ Z.of_nat (length (m_freeObjects (pool w)))
    < ms_initialChunkSize * 2 ^ (growth_events w - 1).

(** The pool of the benchmark between two iterations: one chunk at [b], its
    five slots free. *)
Definition settled (b : Z) (a' : A) : World T A :=
  MkWorld (MkPool [b] (iota b 5) 10 a') ∅ [] [(b, 5)].

End MoreInvariants.

(** [sizeof(ExpensiveObject)]: a vtable pointer and 4 * 1024 * 1024
    doubles. *)
Definition sizeof_ExpensiveObject : Z := 8 + 4 * 1024 * 1024 * 8.

(** An allocator for [ExpensiveObject] that serves requests from
    [arena_next] upwards as long as the address space lasts. *)
Record Arena := MkArena { arena_next : Z }.

Definition arena_allocate (a : Arena) (n : Z) : option (Z * Arena) :=
  let next' := arena_next a + n * sizeof_ExpensiveObject in
  if decide (0 ≤ n ∧ 0 ≤ arena_next a ∧ next' ≤ size_modulus)
  then Some (arena_next a, MkArena next')
  else None.

Global Instance Arena_Allocator : Allocator Arena := {|
  sizeof_value := sizeof_ExpensiveObject;
  allocate := arena_allocate;
  deallocate := λ a _ _, a
|}.

(** An arena starting at address 65536. *)
Definition arena0 : Arena := MkArena 65536.



(** * Properties *)

(** ** Machine arithmetic *)

Lemma size_modulus_pos : 0 < size_modulus.
Proof. reflexivity. Qed.

Lemma wrap_range x : 0 ≤ wrap x < size_modulus.
Proof. unfold wrap. apply Z.mod_pos_bound, size_modulus_pos. Qed.

Lemma wrap_small x : 0 ≤ x < size_modulus → wrap x = x.
Proof. intros Hx. unfold wrap. by apply Z.mod_small. Qed.

Lemma wrap_double x : wrap (wrap x * 2) = wrap (x * 2).
Proof. unfold wrap. by rewrite Z.mul_mod_idemp_l. Qed.




Section Properties.

Context {T V A : Type} `{Allocator A}.

Variable construct : list (Arg V) → option T.

Implicit Types (a : A) (p : ObjectPool A) (w : World T A) (args : list (Arg V)).

(** ** The operations, case by case *)

Lemma length_iota b n : length (iota b n) = Z.to_nat n.
Proof. unfold iota. by rewrite length_fmap, length_seqZ. Qed.

Lemma elem_of_iota b n x :
  x ∈ iota b n ↔ ∃ i, 0 ≤ i < n ∧ x = b + i * sizeof_value.
Proof.
  unfold iota. rewrite list_elem_of_fmap. split.
  - intros (i & -> & Hi). apply elem_of_seqZ in Hi. exists i. split; [lia | done].
  - intros (i & Hi & ->). exists i. split; [done|]. apply elem_of_seqZ. lia.
Qed.

Lemma iota_snoc b n :
  0 ≤ n → iota b (n + 1) = iota b n ++ [b + n * sizeof_value].
Proof.
  intros Hn. unfold iota. rewrite seqZ_app by lia. rewrite fmap_app. f_equal.
Qed.

(** Growth from an empty free list. *)
Lemma addChunk_empty p b a' :
  m_freeObjects p = [] →
  allocate (m_allocator p) (m_newChunkSize p) = Some (b, a') →
  addChunk p =
    Returned (b, m_newChunkSize p)
      (MkPool (m_pool p ++ [b]) (iota b (wrap (m_newChunkSize p)))
         (wrap (m_newChunkSize p * 2)) a').
Proof.
  intros Hfree Halloc. unfold addChunk. rewrite Halloc, Hfree. simpl.
  change (Z.of_nat 0) with 0. rewrite Z.add_0_l, Z.sub_0_r.
  destruct (Z.ltb_spec (wrap (m_newChunkSize p)) 0) as [Hlt|_]; [|done].
  pose proof (wrap_range (m_newChunkSize p)). lia.
Qed.

Lemma addChunk_throws p :
  allocate (m_allocator p) (m_newChunkSize p) = None →
  addChunk p = Threw bad_alloc p.
Proof. intros Halloc. unfold addChunk. by rewrite Halloc. Qed.

Lemma grow_if_empty_spec w : grow_spec w (grow_if_empty w).
Proof.
  unfold grow_if_empty.
  destruct (m_freeObjects (pool w)) as [|x free] eqn:Hfree.
  - destruct (allocate (m_allocator (pool w)) (m_newChunkSize (pool w)))
      as [[b a']|] eqn:Halloc.
    + rewrite (addChunk_empty (pool w) b a') by done.
      by apply (grow_done w b a').
    + rewrite addChunk_throws by done.
      destruct w as [p objs hs al]. by apply grow_failed.
  - destruct w as [p objs hs al]. apply grow_not_needed. simpl in *. by rewrite Hfree.
Qed.

Lemma acquireObject_spec w args :
  acquire_spec construct w args (acquireObject construct w args).
Proof.
  unfold acquireObject.
  pose proof (grow_if_empty_spec w) as Hg.
  destruct (grow_if_empty w) as [[] w1|e w1|] eqn:Hgrow.
  - destruct (last (m_freeObjects (pool w1))) as [object|] eqn:Hlast.
    + apply last_Some in Hlast as [free' Hfree'].
      destruct (construct _) as [v|] eqn:Hc.
      * rewrite Hfree', removelast_last.
        by apply (acquire_returns construct w args w1 free' object v).
      * by apply (acquire_constructor_throws construct w args w1 free' object).
    + apply last_None in Hlast. by apply (acquire_undefined construct w args w1).
  - inversion Hg; subst. by apply acquire_bad_alloc.
  - inversion Hg.
Qed.

(** ** Runs *)

Lemma run_app w ops1 ops2 :
  run construct w (ops1 ++ ops2) =
  match run construct w ops1 with
  | Some w' => run construct w' ops2
  | None => None
  end.
Proof.
  revert w. induction ops1 as [|o ops1 IH]; intros w; simpl; [done|].
  destruct (step construct w o); [apply IH | done].
Qed.

(** A property that every operation preserves holds throughout a run. *)
Lemma run_invariant (P : World T A → Prop) :
  (∀ w o w', P w → step construct w o = Some w' → P w') →
  ∀ ops w w', P w → run construct w ops = Some w' → P w'.
Proof.
  intros Hstep. induction ops as [|o ops IH]; intros w w' HP Hrun; simpl in Hrun.
  - by inversion Hrun; subst.
  - destruct (step construct w o) as [w1|] eqn:Hs; [|done].
    by apply (IH w1); [apply (Hstep w o)|].
Qed.

(** ** Counting *)

Lemma total_capacity_snoc (chunks : list (Z * Z)) c :
  total_capacity (chunks ++ [c]) = total_capacity chunks + c.2.
Proof.
  unfold total_capacity. induction chunks as [|d chunks IH]; simpl; [lia|].
  rewrite IH. lia.
Qed.

Lemma length_drop_handle object (hs : list Z) :
  object ∈ hs → S (length (drop_handle object hs)) = length hs.
Proof.
  induction hs as [|h hs IH]; intros Hin; simpl.
  - by apply elem_of_nil in Hin.
  - destruct (decide (h = object)) as [->|Hne]; [done|].
    simpl. f_equal. apply IH. apply elem_of_cons in Hin as [->|Hin]; done.
Qed.

Lemma chunk_size_range i : 0 ≤ chunk_size i < size_modulus.
Proof. apply wrap_range. Qed.

Lemma chunk_size_succ i : 0 ≤ i → wrap (chunk_size i * 2) = chunk_size (i + 1).
Proof.
  intros Hi. unfold chunk_size. rewrite wrap_double. f_equal.
  rewrite Z.pow_add_r by lia. lia.
Qed.

Lemma consistent_new a : consistent (new_World (T:=T) a).
Proof. by split. Qed.

Lemma consistent_grown w b a' : consistent w → m_freeObjects (pool w) = [] →
  consistent (grown w b a').
Proof.
  intros [Hcount Hchunks Hcaps Hnext] Hfree.
  assert (growth_events (grown w b a') = growth_events w + 1) as Hev.
  { unfold growth_events, grown; simpl. rewrite length_app; simpl. lia. }
  pose proof (chunk_size_range (growth_events w)) as Hrange.
  split; rewrite ?Hev; simpl.
  - rewrite length_iota, total_capacity_snoc, <-Hcount, Hfree. simpl.
    rewrite wrap_small by (rewrite Hnext; done). rewrite Hnext. lia.
  - by rewrite fmap_app, Hchunks.
  - rewrite fmap_app, Hcaps, seqZ_app, fmap_app by (unfold growth_events; lia).
    simpl. rewrite Hnext. f_equal.
  - rewrite Hnext. apply chunk_size_succ. unfold growth_events. lia.
Qed.

Lemma consistent_taken w free' object v :
  consistent w → m_freeObjects (pool w) = free' ++ [object] →
  consistent (taken w free' object v).
Proof.
  intros [Hcount Hchunks Hcaps Hnext] Hfree. split; simpl; try done.
  rewrite <-Hcount, Hfree, !length_app. simpl. lia.
Qed.

Lemma consistent_grow w r w1 :
  consistent w → grow_if_empty w = Returned r w1 → consistent w1.
Proof.
  intros Hw Hg. pose proof (grow_if_empty_spec w) as Hs. rewrite Hg in Hs.
  inversion Hs; subst; [done|]. by apply consistent_grown.
Qed.

Lemma consistent_acquire w args :
  consistent w →
  match acquireObject construct w args with
  | Returned _ w' | Threw _ w' => consistent w'
  | Undefined => True
  end.
Proof.
  intros Hw.
  destruct (acquireObject_spec w args)
    as [w1 free' object v Hg Hfree _| |w1 free' object Hg _ _|]; try done.
  - apply consistent_taken; [|done]. by apply (consistent_grow w tt).
  - by apply (consistent_grow w tt).
Qed.

Lemma consistent_deleter w object w' :
  consistent w → deleter w object = Some w' → consistent w'.
Proof.
  intros [Hcount Hchunks Hcaps Hnext]. unfold deleter.
  destruct (decide (object ∈ handles w)) as [Hin|]; [|done].
  intros [= <-]. split; simpl; try done.
  rewrite <-Hcount, length_app. simpl.
  pose proof (length_drop_handle object (handles w) Hin). lia.
Qed.

Lemma consistent_step w o w' :
  consistent w → step construct w o = Some w' → consistent w'.
Proof.
  intros Hw. destruct o as [args|object]; simpl.
  - pose proof (consistent_acquire w args Hw) as Ha.
    destruct (acquireObject construct w args); intros [= <-]; done.
  - by apply consistent_deleter.
Qed.

Lemma consistent_run a ops w :
  run construct (new_World a) ops = Some w → consistent w.
Proof.
  apply (run_invariant (λ w, consistent w));
    [apply consistent_step | apply consistent_new].
Qed.

(** C1 (capacity conservation): at every point of every sequence of acquire
    and release operations on a new pool, the number of free slots plus the
    number of outstanding handles is the sum of the capacities of the chunks
    obtained so far. *)
Theorem capacity_conservation a ops_before ops_after w_end :
  run construct (new_World a) (ops_before ++ ops_after) = Some w_end →
  ∃ w, run construct (new_World a) ops_before = Some w
    ∧ Z.of_nat (length (m_freeObjects (pool w))) + Z.of_nat (length (handles w))
      = total_capacity (allocated w).
Proof.
  rewrite run_app. intros Hrun.
  destruct (run construct (new_World a) ops_before) as [w|] eqn:Hw; [|done].
  exists w. split; [done|]. by destruct (consistent_run a ops_before w Hw).
Qed.

(** ** Lawful allocators *)

Section Lawful.

Context `{!LawfulAllocator A}.

(** Distinct addresses below [N] are at most [N] many. *)
Lemma NoDup_bounded_length (l : list Z) N :
  0 ≤ N → NoDup l → (∀ x, x ∈ l → 0 ≤ x < N) → Z.of_nat (length l) ≤ N.
Proof.
  intros HN Hnd Hl.
  assert (l ⊆+ seqZ 0 N) as Hsub.
  { apply NoDup_submseteq; [done|]. intros x Hx. apply elem_of_seqZ.
    specialize (Hl x Hx). lia. }
  apply submseteq_length in Hsub. rewrite length_seqZ in Hsub. lia.
Qed.

Lemma NoDup_iota b n : NoDup (iota b n).
Proof.
  unfold iota. apply NoDup_fmap_2_strong; [|apply NoDup_seqZ].
  intros i j _ _ Heq. pose proof sizeof_positive. nia.
Qed.

Lemma total_capacity_exact (chunks : list (Z * Z)) (n : nat) :
  chunks.*2 = (λ i, ms_initialChunkSize * 2 ^ i) <$> seqZ 0 (Z.of_nat n) →
  total_capacity chunks = ms_initialChunkSize * (2 ^ Z.of_nat n - 1).
Proof.
  revert chunks. induction n as [|n IH]; intros chunks Hcaps.
  - destruct chunks; [done | discriminate].
  - rewrite seqZ_S, fmap_app in Hcaps. simpl in Hcaps.
    destruct (decide (chunks = [])) as [->|Hne].
    { simpl in Hcaps. by apply app_cons_not_nil in Hcaps. }
    apply exists_last in Hne as (chunks' & c & ->).
    rewrite fmap_app in Hcaps. simpl in Hcaps.
    apply app_inj_tail in Hcaps as [Hcaps Hc].
    rewrite total_capacity_snoc, (IH chunks' Hcaps), Hc.
    rewrite Nat2Z.inj_succ, Z.pow_succ_r, Z.add_0_l by lia. lia.
Qed.

(** While the growth sequence fits in [size_t], nothing has wrapped. *)
Lemma chunk_size_exact i n :
  0 ≤ i ≤ n → ms_initialChunkSize * 2 ^ n < size_modulus →
  chunk_size i = ms_initialChunkSize * 2 ^ i.
Proof.
  intros Hi Hn. apply wrap_small.
  assert (2 ^ i ≤ 2 ^ n) by (apply Z.pow_le_mono_r; lia).
  assert (0 < 2 ^ i) by (apply Z.pow_pos_nonneg; lia).
  unfold ms_initialChunkSize in *. lia.
Qed.

Lemma chunk_sizes_exact n :
  0 ≤ n → ms_initialChunkSize * 2 ^ n < size_modulus →
  chunk_size <$> seqZ 0 n = (λ i, ms_initialChunkSize * 2 ^ i) <$> seqZ 0 n.
Proof.
  intros Hn Hfits. apply Forall_fmap_ext, Forall_seqZ. intros i Hi.
  apply (chunk_size_exact i n); [lia | done].
Qed.

(** A growth sequence whose total fits in the address space has not
    wrapped. *)
Lemma growth_fits n :
  0 ≤ n → ms_initialChunkSize * (2 ^ n - 1) ≤ size_modulus →
  ms_initialChunkSize * 2 ^ n < size_modulus.
Proof.
  intros Hn Htotal. destruct (decide (n ≤ 61)) as [Hle|Hgt].
  - assert (2 ^ n ≤ 2 ^ 61) by (apply Z.pow_le_mono_r; lia).
    unfold ms_initialChunkSize, size_modulus in *. lia.
  - assert (2 ^ 62 ≤ 2 ^ n) by (apply Z.pow_le_mono_r; lia).
    unfold ms_initialChunkSize, size_modulus in *. lia.
Qed.

Lemma total_capacity_fits w :
  consistent w → ms_initialChunkSize * 2 ^ growth_events w < size_modulus →
  total_capacity (allocated w) = ms_initialChunkSize * (2 ^ growth_events w - 1).
Proof.
  intros Hc Hfits. unfold growth_events in *. apply total_capacity_exact.
  rewrite (consistent_capacities w Hc). apply chunk_sizes_exact; [lia | done].
Qed.

Lemma next_size_fits w :
  consistent w → ms_initialChunkSize * 2 ^ growth_events w < size_modulus →
  m_newChunkSize (pool w) = ms_initialChunkSize * 2 ^ growth_events w.
Proof.
  intros Hc Hfits. rewrite (consistent_next w Hc).
  apply (chunk_size_exact _ (growth_events w)); [|done].
  unfold growth_events. lia.
Qed.

Lemma sound_new a : sound (new_World (T:=T) a).
Proof.
  split; simpl.
  - apply consistent_new.
  - apply NoDup_nil_2.
  - intros x Hx. by apply elem_of_nil in Hx.
  - done.
Qed.

Lemma sound_slots_bounded w :
  NoDup (m_freeObjects (pool w) ++ handles w) →
  (∀ x, x ∈ m_freeObjects (pool w) ++ handles w → used (m_allocator (pool w)) x) →
  Z.of_nat (length (m_freeObjects (pool w))) + Z.of_nat (length (handles w))
  ≤ size_modulus.
Proof.
  intros Hnd Hused. rewrite <-Nat2Z.inj_add, <-length_app.
  apply NoDup_bounded_length; [done | done |].
  intros x Hx. by apply (used_addressable (m_allocator (pool w))), Hused.
Qed.

Lemma sound_grown w b a' :
  sound w → m_freeObjects (pool w) = [] →
  allocate (m_allocator (pool w)) (m_newChunkSize (pool w)) = Some (b, a') →
  sound (grown w b a').
Proof.
  intros [Hc Hnd Hused Hfits] Hfree Halloc.
  pose proof (consistent_grown w b a' Hc Hfree) as Hc'.
  assert (0 ≤ growth_events w) as Hev0 by (unfold growth_events; lia).
  assert (growth_events (grown w b a') = growth_events w + 1) as Hev.
  { unfold growth_events, grown; simpl. rewrite length_app; simpl. lia. }
  assert (wrap (m_newChunkSize (pool w)) = m_newChunkSize (pool w)) as Hwrap.
  { rewrite (consistent_next w Hc). apply wrap_small, chunk_size_range. }
  rewrite Hfree in Hnd, Hused. simpl in Hnd, Hused.
  assert (NoDup (iota b (m_newChunkSize (pool w)) ++ handles w)) as Hnd'.
  { apply NoDup_app. split; [apply NoDup_iota|]. split; [|done].
    intros x Hx Hh. apply elem_of_iota in Hx as (i & Hi & ->).
    by apply (allocate_fresh _ _ _ _ i Halloc Hi), Hused. }
  assert (∀ x, x ∈ iota b (m_newChunkSize (pool w)) ++ handles w → used a' x)
    as Hused'.
  { intros x Hx. apply elem_of_app in Hx as [Hx|Hx].
    - apply elem_of_iota in Hx as (i & Hi & ->).
      by apply (allocate_marks _ _ _ _ i Halloc).
    - by apply (allocate_keeps _ _ _ _ x Halloc), Hused. }
  split; simpl; rewrite ?Hwrap; try done.
  rewrite Hev. apply growth_fits; [lia|].
  pose proof (sound_slots_bounded (grown w b a')) as Hb. simpl in Hb.
  rewrite Hwrap in Hb. specialize (Hb Hnd' Hused').
  pose proof (consistent_count _ Hc') as Hcount. simpl in Hcount.
  rewrite Hwrap in Hcount. rewrite Hcount in Hb.
  rewrite total_capacity_snoc, (total_capacity_fits w Hc Hfits) in Hb.
  simpl in Hb. rewrite (next_size_fits w Hc Hfits) in Hb.
  rewrite Z.pow_add_r by lia. lia.
Qed.

Lemma drop_handle_Permutation object (hs : list Z) :
  object ∈ hs → hs ≡ₚ object :: drop_handle object hs.
Proof.
  induction hs as [|h hs IH]; intros Hin; simpl.
  - by apply elem_of_nil in Hin.
  - destruct (decide (h = object)) as [->|Hne]; [done|].
    apply elem_of_cons in Hin as [->|Hin]; [done|].
    rewrite (IH Hin) at 1. apply Permutation_swap.
Qed.

Lemma sound_taken w free' object v :
  sound w → m_freeObjects (pool w) = free' ++ [object] →
  sound (taken w free' object v).
Proof.
  intros [Hc Hnd Hused Hfits] Hfree.
  assert (free' ++ handles w ++ [object] ≡ₚ m_freeObjects (pool w) ++ handles w)
    as Hperm.
  { rewrite Hfree, <-(assoc_L (++)). f_equiv. apply Permutation_app_comm. }
  split; simpl.
  - by apply consistent_taken.
  - by rewrite Hperm.
  - intros x Hx. apply Hused. by rewrite <-Hperm.
  - done.
Qed.

Lemma sound_grow w r w1 :
  sound w → grow_if_empty w = Returned r w1 → sound w1.
Proof.
  intros Hw Hg. pose proof (grow_if_empty_spec w) as Hs. rewrite Hg in Hs.
  inversion Hs; subst; [done|]. by apply sound_grown.
Qed.

Lemma sound_acquire w args :
  sound w →
  match acquireObject construct w args with
  | Returned _ w' | Threw _ w' => sound w'
  | Undefined => False
  end.
Proof.
  intros Hw.
  destruct (acquireObject_spec w args)
    as [w1 free' object v Hg Hfree _| |w1 free' object Hg _ _|w1 Hg Hfree].
  - apply sound_taken; [|done]. by apply (sound_grow w tt).
  - done.
  - by apply (sound_grow w tt).
  - pose proof (grow_if_empty_spec w) as Hs. rewrite Hg in Hs.
    inversion Hs as [Hne| b a' Hempty Halloc |]; subst; [done|].
    unfold grown in Hfree. simpl in Hfree.
    apply (f_equal length) in Hfree. rewrite length_iota in Hfree. simpl in Hfree.
    destruct Hw as [Hc _ _ Hfits].
    rewrite (next_size_fits w Hc Hfits) in Hfree.
    assert (0 < 2 ^ growth_events w)
      by (apply Z.pow_pos_nonneg; unfold growth_events; lia).
    rewrite wrap_small in Hfree
      by (unfold ms_initialChunkSize in *; lia).
    unfold ms_initialChunkSize in *. lia.
Qed.

Lemma sound_deleter w object w' :
  sound w → deleter w object = Some w' → sound w'.
Proof.
  intros [Hc Hnd Hused Hfits] Hdel.
  pose proof (consistent_deleter w object w' Hc Hdel) as Hc'.
  unfold deleter in Hdel.
  destruct (decide (object ∈ handles w)) as [Hin|]; [|done].
  injection Hdel as <-.
  assert ((m_freeObjects (pool w) ++ [object]) ++ drop_handle object (handles w)
          ≡ₚ m_freeObjects (pool w) ++ handles w) as Hperm.
  { rewrite <-(assoc_L (++)). f_equiv. simpl.
    symmetry. by apply drop_handle_Permutation. }
  split; simpl.
  - done.
  - by rewrite Hperm.
  - intros x Hx. apply Hused. by rewrite <-Hperm.
  - done.
Qed.

Lemma sound_step w o w' :
  sound w → step construct w o = Some w' → sound w'.
Proof.
  intros Hw. destruct o as [args|object]; simpl.
  - pose proof (sound_acquire w args Hw) as Ha.
    destruct (acquireObject construct w args); intros [= <-]; done.
  - by apply sound_deleter.
Qed.

Lemma sound_run a ops w :
  run construct (new_World a) ops = Some w → sound w.
Proof.
  apply (run_invariant (λ w, sound w)); [apply sound_step | apply sound_new].
Qed.

(** X1 (no undefined behaviour): with a lawful allocator, acquiring from a
    world that a sequence of acquire and release operations reaches from a
    new pool never runs into undefined behaviour: the free list is not empty
    when its last element is read. *)
Lemma acquire_defined a ops w args :
  run construct (new_World a) ops = Some w →
  acquireObject construct w args ≠ Undefined.
Proof.
  intros Hrun Hu. pose proof (sound_acquire w args (sound_run a ops w Hrun)) as Hs.
  by rewrite Hu in Hs.
Qed.

(** C9 (no alias): with a lawful allocator, in every world that a sequence
    of acquire and release operations reaches from a new pool, the addresses
    of the outstanding handles are pairwise distinct. *)
Theorem no_alias a ops w :
  run construct (new_World a) ops = Some w → NoDup (handles w).
Proof.
  intros Hrun. destruct (sound_run a ops w Hrun) as [_ Hnd _ _].
  by apply NoDup_app in Hnd as (_ & _ & Hnd).
Qed.

(** An operation either obtains no chunk, or it is an acquisition that found
    the free list empty, obtained one chunk of the size stored in the pool
    and doubled that size. *)
Lemma step_growth w o w' :
  sound w → step construct w o = Some w' →
  allocated w' = allocated w
  ∨ ∃ args b, o = Acquire args
      ∧ m_freeObjects (pool w) = []
      ∧ allocated w' = allocated w ++ [(b, m_newChunkSize (pool w))]
      ∧ m_newChunkSize (pool w') = 2 * m_newChunkSize (pool w).
Proof.
  intros Hw Hstep. pose proof (sound_step w o w' Hw Hstep) as Hw'.
  assert (∀ b a', m_freeObjects (pool w) = [] →
            allocated w' = allocated w ++ [(b, m_newChunkSize (pool w))] →
            m_newChunkSize (pool w') = 2 * m_newChunkSize (pool w)) as Hdouble.
  { intros b a' _ Hlog. destruct Hw as [Hc _ _ Hfits], Hw' as [Hc' _ _ Hfits'].
    rewrite (next_size_fits w Hc Hfits), (next_size_fits w' Hc' Hfits').
    unfold growth_events. rewrite Hlog, length_app. simpl.
    rewrite Nat2Z.inj_add, Z.pow_add_r by lia. simpl. lia. }
  destruct o as [args|object]; simpl in Hstep.
  - destruct (acquireObject_spec w args)
      as [w1 free' object v Hg _ _| |w1 free' object Hg _ _|];
      try discriminate; injection Hstep as <-.
    + pose proof (grow_if_empty_spec w) as Hs. rewrite Hg in Hs.
      inversion Hs as [|b a' Hempty _|]; subst; [by left|].
      right. exists args, b. repeat split; try done. by apply (Hdouble b a').
    + by left.
    + pose proof (grow_if_empty_spec w) as Hs. rewrite Hg in Hs.
      inversion Hs as [|b a' Hempty _|]; subst; [by left|].
      right. exists args, b. repeat split; try done. by apply (Hdouble b a').
  - left. unfold deleter in Hstep.
    destruct (decide (object ∈ handles w)); [|done]. by injection Hstep as <-.
Qed.

(** C2 (growth doubling): with a lawful allocator, in every world that a
    sequence of acquire and release operations reaches from a new pool,
    where [n] growth events have happened: the k-th chunk obtained has
    capacity [5 * 2^(k-1)], the stored size for the next chunk is [5 * 2^n],
    the capacities obtained so far add up to [5 * (2^n - 1)], and the next
    operation obtains a chunk only if it is an acquisition that finds the
    free list empty, in which case the chunk has [5 * 2^n] slots and the
    stored size is doubled. *)
Theorem growth_doubling a ops w :
  run construct (new_World a) ops = Some w →
  let n := growth_events w in
  (∀ k : nat, (1 ≤ k ≤ length (allocated w))%nat →
     (allocated w).*2 !! (k - 1)%nat
     = Some (ms_initialChunkSize * 2 ^ (Z.of_nat k - 1)))
  ∧ m_newChunkSize (pool w) = ms_initialChunkSize * 2 ^ n
  ∧ total_capacity (allocated w) = ms_initialChunkSize * (2 ^ n - 1)
  ∧ (∀ o w', step construct w o = Some w' →
       allocated w' = allocated w
       ∨ ∃ args b, o = Acquire args
           ∧ m_freeObjects (pool w) = []
           ∧ allocated w' = allocated w ++ [(b, ms_initialChunkSize * 2 ^ n)]
           ∧ m_newChunkSize (pool w') = 2 * m_newChunkSize (pool w)).
Proof.
  intros Hrun n. pose proof (sound_run a ops w Hrun) as Hw.
  destruct Hw as [Hc Hnd Hused Hfits].
  split; [|split; [|split]].
  - intros k Hk. rewrite (consistent_capacities w Hc).
    rewrite (chunk_sizes_exact (growth_events w))
      by (unfold growth_events; done || lia).
    rewrite list_lookup_fmap, lookup_seqZ_lt by (unfold growth_events; lia).
    simpl. do 3 f_equal. lia.
  - by apply next_size_fits.
  - by apply total_capacity_fits.
  - intros o w' Hstep. unfold n. rewrite <-(next_size_fits w Hc Hfits).
    by apply step_growth.
Qed.

(** ** Order of the slots *)

Lemma lookup_iota b n (i : nat) :
  Z.of_nat i < n → iota b n !! i = Some (b + Z.of_nat i * sizeof_value).
Proof.
  intros Hi. unfold iota. rewrite list_lookup_fmap, lookup_seqZ_lt by done.
  simpl. do 2 f_equal.
Qed.

Lemma grow_if_empty_idle w :
  m_freeObjects (pool w) ≠ [] → grow_if_empty w = Returned tt w.
Proof. unfold grow_if_empty. by destruct (m_freeObjects (pool w)). Qed.

(** Taking the last slot of a chunk that is still whole up to slot [m]. *)
Lemma acquire_from_iota w b m args v :
  m_freeObjects (pool w) = iota b m → 1 ≤ m →
  construct (forward <$> (bind_by_value <$> args)) = Some v →
  acquireObject construct w args =
    Returned (b + (m - 1) * sizeof_value)
      (taken w (iota b (m - 1)) (b + (m - 1) * sizeof_value) v).
Proof.
  intros Hfree Hm Hv.
  assert (iota b m = iota b (m - 1) ++ [b + (m - 1) * sizeof_value]) as Hsnoc.
  { rewrite <-iota_snoc by lia. f_equal. lia. }
  unfold acquireObject. rewrite grow_if_empty_idle.
  - by rewrite Hfree, Hsnoc, last_snoc, Hv, removelast_last.
  - rewrite Hfree, Hsnoc. intros Heq. symmetry in Heq.
    by apply app_cons_not_nil in Heq.
Qed.

Lemma descending_cons b m k :
  0 ≤ k →
  b + (m - 1) * sizeof_value
    :: ((λ j, b + (m - 1 - 1 - j) * sizeof_value) <$> seqZ 0 k)
  = (λ j, b + (m - 1 - j) * sizeof_value) <$> seqZ 0 (Z.succ k).
Proof.
  intros Hk. rewrite (seqZ_cons 0 (Z.succ k)) by lia. simpl.
  rewrite Z.pred_succ, <-(fmap_add_seqZ 1 0), <-list_fmap_compose.
  f_equal; [f_equal; lia|].
  apply list_fmap_ext. intros _ j _. simpl. f_equal. lia.
Qed.

Lemma acquire_all_from_iota argss : ∀ w b m,
  m_freeObjects (pool w) = iota b m →
  Z.of_nat (length argss) ≤ m →
  Forall (λ args, is_Some (construct (forward <$> (bind_by_value <$> args)))) argss →
  ∃ w',
    acquire_all construct w argss =
      Some ((λ j, b + (m - 1 - j) * sizeof_value) <$> seqZ 0 (Z.of_nat (length argss)), w')
    ∧ m_freeObjects (pool w') = iota b (m - Z.of_nat (length argss)).
Proof.
  induction argss as [|args argss IH]; intros w b m Hfree Hlen Hok.
  - exists w. split; [done|]. simpl. by rewrite Z.sub_0_r.
  - apply Forall_cons in Hok as [[v Hv] Hok]. simpl length in *.
    simpl. rewrite (acquire_from_iota w b m args v) by (done || lia).
    destruct (IH (taken w (iota b (m - 1)) (b + (m - 1) * sizeof_value) v) b (m - 1))
      as (w' & Hrun & Hfree'); [done | lia | done |].
    exists w'. rewrite Hrun. split.
    + by rewrite Nat2Z.inj_succ, <-descending_cons by lia.
    + rewrite Hfree'. f_equal. lia.
Qed.

(** C10 (slot order after growth): growth appends the slots of the new chunk
    in ascending address order; when the free list is empty and the
    allocator hands out the chunk at [b], the acquisition that caused the
    growth returns the highest slot of the chunk, and that acquisition
    together with the ones that follow it, none of them released in between
    and as long as the chunk lasts, return the slots of the
    chunk from the highest address downwards, strictly descending. *)
Theorem slots_descend_after_growth a ops w b a' argss :
  run construct (new_World a) ops = Some w →
  m_freeObjects (pool w) = [] →
  allocate (m_allocator (pool w)) (m_newChunkSize (pool w)) = Some (b, a') →
  Z.of_nat (length argss) ≤ m_newChunkSize (pool w) →
  Forall (λ args, is_Some (construct (forward <$> (bind_by_value <$> args)))) argss →
  let n := m_newChunkSize (pool w) in
  let slot (j : Z) := b + (n - 1 - j) * sizeof_value in
  (∃ p', addChunk (pool w) = Returned (b, n) p'
     ∧ m_freeObjects p' = iota b n
     ∧ ∀ i j x y, (i < j)%nat → iota b n !! i = Some x → iota b n !! j = Some y → x < y)
  ∧ (∃ w', acquire_all construct w argss
           = Some (slot <$> seqZ 0 (Z.of_nat (length argss)), w'))
  ∧ (∀ args rest, argss = args :: rest →
       ∃ w', acquireObject construct w args = Returned (b + (n - 1) * sizeof_value) w')
  ∧ (∀ i j, 0 ≤ i → i < j → slot j < slot i).
Proof.
  intros Hrun Hfree Halloc Hlen Hok n slot.
  pose proof (consistent_run a ops w Hrun) as Hc.
  assert (wrap n = n) as Hwrap.
  { unfold n. rewrite (consistent_next w Hc). apply wrap_small, chunk_size_range. }
  pose proof sizeof_positive as Hsz.
  assert (∀ args v, construct (forward <$> (bind_by_value <$> args)) = Some v →
    1 ≤ n →
    acquireObject construct w args =
      Returned (b + (n - 1) * sizeof_value)
        (taken (grown w b a') (iota b (n - 1)) (b + (n - 1) * sizeof_value) v))
    as Hfirst.
  { intros args v Hv Hn.
    pose proof (acquire_from_iota (grown w b a') b n args v) as Hacq.
    unfold acquireObject in Hacq |- *.
    pose proof (grow_if_empty_spec w) as Hs.
    inversion Hs as [Hne|b0 a0 _ Halloc0 Hg|_ Halloc0 Hg]; [done| |congruence].
    rewrite Halloc in Halloc0. injection Halloc0 as <- <-.
    assert (grow_if_empty (grown w b a') = Returned tt (grown w b a')) as Hg'.
    { pose proof (grow_if_empty_spec (grown w b a')) as Hs'.
      inversion Hs' as [|? ? Hempty|Hempty]; [done| |]; simpl in Hempty;
        fold n in Hempty; rewrite Hwrap in Hempty;
        apply (f_equal length) in Hempty; rewrite length_iota in Hempty;
        simpl in Hempty; lia. }
    rewrite Hg' in Hacq. apply Hacq; [|done|done].
    simpl. fold n. by rewrite Hwrap. }
  split; [|split; [|split]].
  - eexists. split; [by apply addChunk_empty|]. simpl. fold n. rewrite Hwrap.
    split; [done|]. intros i j x y Hij Hi Hj.
    pose proof (lookup_lt_Some _ _ _ Hi) as Hil.
    pose proof (lookup_lt_Some _ _ _ Hj) as Hjl.
    rewrite length_iota in Hil, Hjl.
    rewrite lookup_iota in Hi by lia. rewrite lookup_iota in Hj by lia.
    injection Hi as <-. injection Hj as <-. nia.
  - destruct argss as [|args rest]; [by exists w|].
    apply Forall_cons in Hok as [[v Hv] Hok]. simpl length in *.
    simpl. rewrite (Hfirst args v Hv) by lia.
    destruct (acquire_all_from_iota rest
      (taken (grown w b a') (iota b (n - 1)) (b + (n - 1) * sizeof_value) v) b (n - 1))
      as (w' & Hall & _); [done | lia | done |].
    exists w'. rewrite Hall.
    unfold slot. by rewrite Nat2Z.inj_succ, <-descending_cons by lia.
  - intros args rest ->. apply Forall_cons in Hok as [[v Hv] _].
    simpl length in Hlen. eexists. apply (Hfirst args v Hv). lia.
  - intros i j Hi Hij. unfold slot. nia.
Qed.

(** ** Teardown *)

Lemma deallocate_chunks_calls (chunks : list (Z * Z)) : ∀ a i,
  0 ≤ i →
  chunks.*2 = chunk_size <$> seqZ i (Z.of_nat (length chunks)) →
  (deallocate_chunks a (chunk_size i) (chunks.*1)).1 = chunks.
Proof.
  induction chunks as [|[c sz] chunks IH]; intros a i Hi Hcaps; [done|].
  simpl length in Hcaps. rewrite Nat2Z.inj_succ, seqZ_cons in Hcaps by lia.
  rewrite Z.pred_succ in Hcaps. simpl in Hcaps. injection Hcaps as -> Hcaps.
  simpl. rewrite chunk_size_succ by done.
  specialize (IH (deallocate a c (chunk_size i)) (i + 1)).
  destruct (deallocate_chunks _ _ _) as [calls a'']. simpl in *.
  f_equal. apply IH; [lia|]. by rewrite Z.add_1_r.
Qed.

Lemma fits_at_most_61 n : 0 ≤ n → ms_initialChunkSize * 2 ^ n < size_modulus → n ≤ 61.
Proof.
  intros Hn Hfits. destruct (decide (n ≤ 61)) as [|Hgt]; [done|].
  assert (2 ^ 62 ≤ 2 ^ n) by (apply Z.pow_le_mono_r; lia).
  unfold ms_initialChunkSize, size_modulus in *. lia.
Qed.

(** With every slot free the assertion holds, rounding or not. *)
Lemma sizes_agree_all_free n :
  0 ≤ n ≤ 61 → sizes_agree (ms_initialChunkSize * (2 ^ n - 1)) n = true.
Proof.
  intros Hn.
  assert (forallb (λ n, sizes_agree (ms_initialChunkSize * (2 ^ n - 1)) n) (seqZ 0 62)
          = true) as Hall by (by vm_compute).
  rewrite forallb_forall in Hall. apply Hall.
  apply list_elem_of_In, elem_of_seqZ. lia.
Qed.






End Lawful.

(** ** Recycling and failures *)

Lemma acquire_last w free' object args v :
  m_freeObjects (pool w) = free' ++ [object] →
  construct (forward <$> (bind_by_value <$> args)) = Some v →
  acquireObject construct w args = Returned object (taken w free' object v).
Proof.
  intros Hfree Hv. unfold acquireObject. rewrite grow_if_empty_idle.
  - by rewrite Hfree, last_snoc, Hv, removelast_last.
  - rewrite Hfree. intros Heq. symmetry in Heq. by apply app_cons_not_nil in Heq.
Qed.

(** C3 (recycling round trip): releasing a handle and then acquiring returns
    the slot just released, the pool is exactly as it was before the release
    and no chunk has been obtained; and whenever an acquisition returns, the
    slot it returns is the last one of the free list (as it is after growth,
    when growth was needed), which is removed. *)
Theorem recycling_round_trip w object w1 args v :
  deleter w object = Some w1 →
  construct (forward <$> (bind_by_value <$> args)) = Some v →
  (∃ w2, acquireObject construct w1 args = Returned object w2
     ∧ pool w2 = pool w
     ∧ allocated w2 = allocated w
     ∧ objects w2 !! object = Some v)
  ∧ (∀ w0 args0 object0 w',
       acquireObject construct w0 args0 = Returned object0 w' →
       ∃ w0', grow_if_empty w0 = Returned tt w0'
         ∧ (m_freeObjects (pool w0) ≠ [] → w0' = w0)
         ∧ last (m_freeObjects (pool w0')) = Some object0
         ∧ m_freeObjects (pool w') = removelast (m_freeObjects (pool w0'))).
Proof.
  intros Hdel Hv. split.
  - unfold deleter in Hdel.
    destruct (decide (object ∈ handles w)) as [Hin|]; [|done].
    injection Hdel as <-. eexists. split; [by apply acquire_last|].
    destruct w as [[chunks free size al] objs hs log]. simpl.
    split; [done|]. split; [done|]. apply lookup_insert_eq.
  - intros w0 args0 object0 w' Hacq.
    pose proof (acquireObject_spec w0 args0) as Hs. rewrite Hacq in Hs.
    inversion Hs as [w0' free' ? v0 Hg Hfree _| | |]; subst.
    exists w0'. split; [done|]. split.
    + intros Hne. rewrite grow_if_empty_idle in Hg by done. by injection Hg.
    + simpl. by rewrite Hfree, last_snoc, removelast_last.
Qed.

(** C4 (construction failure): when the constructor throws, the exception
    reaches the caller and the world is the one in which the slot was about
    to be taken: the slot is still the last free one, no handle and no object
    have been added, the pool is untouched when no growth was needed, and the
    next acquisition whose constructor succeeds gets that slot. *)
Theorem construction_failure_atomic w w1 object args :
  grow_if_empty w = Returned tt w1 →
  last (m_freeObjects (pool w1)) = Some object →
  construct (forward <$> (bind_by_value <$> args)) = None →
  acquireObject construct w args = Threw constructor_failure w1
  ∧ object ∈ m_freeObjects (pool w1)
  ∧ handles w1 = handles w
  ∧ objects w1 = objects w
  ∧ (m_freeObjects (pool w) ≠ [] → w1 = w)
  ∧ ∀ args' v,
      construct (forward <$> (bind_by_value <$> args')) = Some v →
      acquireObject construct w1 args'
      = Returned object (taken w1 (removelast (m_freeObjects (pool w1))) object v).
Proof.
  intros Hg Hlast Hnone.
  pose proof Hlast as Hfree. apply last_Some in Hfree as [free' Hfree].
  split; [|split; [|split; [|split; [|split]]]].
  - unfold acquireObject. by rewrite Hg, Hlast, Hnone.
  - rewrite Hfree. apply elem_of_app. right. by apply list_elem_of_singleton.
  - pose proof (grow_if_empty_spec w) as Hs. rewrite Hg in Hs.
    by inversion Hs; subst.
  - pose proof (grow_if_empty_spec w) as Hs. rewrite Hg in Hs.
    by inversion Hs; subst.
  - intros Hne. rewrite grow_if_empty_idle in Hg by done. by injection Hg.
  - intros args' v Hv. rewrite Hfree, removelast_last. by apply acquire_last.
Qed.

(** C5 (out of memory): when the free list is empty and the allocator cannot
    provide the chunk, [addChunk] throws and leaves the pool as it was, and
    the acquisition throws [bad_alloc] to its caller and leaves the whole
    world as it was. *)
Theorem out_of_memory_atomic w args :
  m_freeObjects (pool w) = [] →
  allocate (m_allocator (pool w)) (m_newChunkSize (pool w)) = None →
  addChunk (pool w) = Threw bad_alloc (pool w)
  ∧ acquireObject construct w args = Threw bad_alloc w.
Proof.
  intros Hfree Halloc.
  pose proof (addChunk_throws (pool w) Halloc) as Hadd. split; [done|].
  unfold acquireObject, grow_if_empty. rewrite Hfree, Hadd. by destruct w.
Qed.

(** What the constructor receives carries the values the caller passed. *)
Lemma forwarded_values args :
  arg_value <$> (forward <$> (bind_by_value <$> args)) = arg_value <$> args.
Proof.
  rewrite <-!list_fmap_compose. apply list_fmap_ext. intros _ x _. simpl.
  by destruct x as [? [] ? ?].
Qed.

(** The object is constructed at the slot that is returned. *)
Lemma acquire_constructs_in_place w args object w' :
  acquireObject construct w args = Returned object w' →
  ∃ v, construct (forward <$> (bind_by_value <$> args)) = Some v
    ∧ objects w' !! object = Some v.
Proof.
  intros Hacq. pose proof (acquireObject_spec w args) as Hs. rewrite Hacq in Hs.
  inversion Hs as [w1 free' ? v _ _ Hv| | |]; subst.
  exists v. split; [done|]. apply lookup_insert_eq.
Qed.

(** Moving hands everything to the new pool and empties the vectors of the
    source; the size for the next chunk stays behind in the source as it
    was. *)
Lemma move_ObjectPool_spec p :
  (move_ObjectPool p).1 = p
  ∧ m_pool (move_ObjectPool p).2 = []
  ∧ m_freeObjects (move_ObjectPool p).2 = []
  ∧ m_newChunkSize (move_ObjectPool p).2 = m_newChunkSize p.
Proof. by destruct p. Qed.

End Properties.

(** * The bump allocator and worked runs *)

Lemma bump_allocate_Some a n b a' :
  bump_allocate a n = Some (b, a') →
  0 ≤ n ∧ 0 ≤ bump_next a ∧ bump_next a + n * sizeof_Example ≤ bump_limit a
  ∧ bump_limit a ≤ size_modulus
  ∧ b = bump_next a
  ∧ a' = MkBump (bump_next a + n * sizeof_Example) (bump_limit a).
Proof.
  unfold bump_allocate. case_decide as Hok; [|done].
  intros [= <- <-]. by destruct Hok as (? & ? & ? & ?).
Qed.

(** The bump allocator is lawful. *)
Global Instance Bump_Lawful : LawfulAllocator Bump.
Proof.
  refine {| used := bump_used |}.
  - done.
  - intros a n b a' i Halloc Hi [[_ Hlt] _].
    apply bump_allocate_Some in Halloc as (_ & _ & _ & _ & -> & _).
    change sizeof_value with sizeof_Example in Hlt.
    unfold sizeof_Example in *. lia.
  - intros a n b a' x Halloc [[H0 Hlt] Hmod].
    apply bump_allocate_Some in Halloc as (Hn & _ & _ & _ & _ & ->).
    unfold bump_used, sizeof_Example in *. simpl. lia.
  - intros a n b a' i Halloc Hi.
    apply bump_allocate_Some in Halloc as (Hn & Hnext & Hlim & Hmod & -> & ->).
    change sizeof_value with sizeof_Example.
    unfold bump_used, sizeof_Example in *. simpl. nia.
  - intros a x [[H0 _] Hmod]. lia.
Qed.

(** The theorems at work on the bump allocator. *)

Lemma capacity_conservation_witness :
  ∃ w, run construct_Example (new_World bump0) (replicate 7 (Acquire args_42_x))
       = Some w
    ∧ Z.of_nat (length (m_freeObjects (pool w))) + Z.of_nat (length (handles w))
      = total_capacity (allocated w).
Proof.
  eapply (capacity_conservation construct_Example bump0
            (replicate 7 (Acquire args_42_x)) [Release 4176; Release 4656]).
  by vm_compute.
Defined.

Lemma no_alias_witness :
  ∃ w, run construct_Example (new_World bump0) seven_then_two = Some w
    ∧ NoDup (handles w).
Proof.
  eexists. split; [by vm_compute|].
  apply (no_alias construct_Example bump0 seven_then_two).
  by vm_compute.
Defined.

Lemma growth_doubling_witness :
  ∃ w, run construct_Example (new_World bump0) seven_then_two = Some w
    ∧ (∀ k : nat, (1 ≤ k ≤ length (allocated w))%nat →
         (allocated w).*2 !! (k - 1)%nat
         = Some (ms_initialChunkSize * 2 ^ (Z.of_nat k - 1)))
    ∧ m_newChunkSize (pool w) = ms_initialChunkSize * 2 ^ growth_events w
    ∧ total_capacity (allocated w)
      = ms_initialChunkSize * (2 ^ growth_events w - 1).
Proof.
  eexists. split; [by vm_compute|].
  edestruct (growth_doubling construct_Example bump0 seven_then_two)
    as (Hsizes & Hnext & Htotal & _); [by vm_compute|].
  split; [exact Hsizes|]. split; [exact Hnext | exact Htotal].
Defined.

Lemma slots_descend_after_growth_witness :
  ∃ w', acquire_all construct_Example (new_World bump0) (replicate 3 args_42_x)
        = Some ([4256; 4216; 4176], w').
Proof.
  destruct (slots_descend_after_growth construct_Example bump0 [] (new_World bump0)
              4096 (MkBump 4296 1048576) (replicate 3 args_42_x))
    as (_ & Hall & _).
  - reflexivity.
  - reflexivity.
  - reflexivity.
  - simpl. unfold ms_initialChunkSize. lia.
  - repeat (apply Forall_cons; split; [by eexists|]). apply Forall_nil_2.
  - exact Hall.
Defined.


Lemma recycling_round_trip_witness :
  ∃ w w1 w2,
    run construct_Example (new_World bump0) [Acquire args_42_x; Acquire args_42_x]
      = Some w
    ∧ deleter w 4216 = Some w1
    ∧ acquireObject construct_Example w1 args_42_x = Returned 4216 w2
    ∧ pool w2 = pool w.
Proof.
  eexists. eexists.
  destruct (recycling_round_trip construct_Example
              (MkWorld (MkPool [4096] [4096; 4136; 4176] 10 (MkBump 4296 1048576))
                 (<[4216 := MkExample 42 "x"]> (<[4256 := MkExample 42 "x"]> ∅))
                 [4256; 4216] [(4096, 5)])
              4216 _ args_42_x (MkExample 42 "x") eq_refl eq_refl)
    as [(w2 & Hacq & Hpool & _) _].
  exists w2. split; [by vm_compute|]. split; [reflexivity|]. split; done.
Defined.

Lemma construction_failure_atomic_witness :
  ∃ w1,
    acquireObject construct_Example (new_World bump0) args_negative
      = Threw constructor_failure w1
    ∧ 4256 ∈ m_freeObjects (pool w1)
    ∧ handles w1 = [].
Proof.
  eexists.
  destruct (construction_failure_atomic construct_Example (new_World bump0)
              (grown (new_World bump0) 4096 (MkBump 4296 1048576)) 4256 args_negative)
    as (Hthrow & Hin & Hhandles & _).
  - reflexivity.
  - reflexivity.
  - reflexivity.
  - split; [exact Hthrow|]. split; [exact Hin | exact Hhandles].
Defined.

Lemma out_of_memory_atomic_witness :
  acquireObject construct_Example (new_World (MkBump 4096 4200)) args_42_x
  = Threw bad_alloc (new_World (MkBump 4096 4200)).
Proof.
  apply (out_of_memory_atomic construct_Example (new_World (MkBump 4096 4200)) args_42_x).
  - reflexivity.
  - reflexivity.
Defined.

(** C6 (move semantics), evaluated where the code departs from it.  After
    one acquire / release cycle the pool holds one chunk and the size for the
    next chunk is 10.  Moving the pool hands chunks, free slots and that size
    to the new pool and empties the vectors of the source, but the source
    keeps 10 as its next chunk size instead of the initial 5.  When the
    moved-from pool is used again its first chunk has 10 slots, so that with
    no handle outstanding the destructor's assertion fails, and the
    deallocation loop would return the chunk with size 5. *)
Theorem moved_from_keeps_chunk_size :
  (∃ w, run construct_Example (new_World bump0) one_cycle = Some w
     ∧ pool w = cycled_pool ∧ handles w = [])
  ∧ (move_ObjectPool cycled_pool).1 = cycled_pool
  ∧ (move_ObjectPool cycled_pool).2 = MkPool [] [] 10 (MkBump 4296 1048576)
  ∧ m_newChunkSize (move_ObjectPool cycled_pool).2 ≠ ms_initialChunkSize
  ∧ ∃ w', run construct_Example
            (MkWorld (move_ObjectPool cycled_pool).2 ∅ [] [])
            [Acquire args_42_x; Release 4656] = Some w'
     ∧ handles w' = []
     ∧ allocated w' = [(4296, 10)]
     ∧ destroy_ObjectPool (pool w') = None
     ∧ (deallocate_chunks (m_allocator (pool w')) ms_initialChunkSize (m_pool (pool w'))).1
       = [(4296, 5)].
Proof.
  split; [|split; [|split; [|split]]].
  - eexists. split; [by vm_compute|]. by split.
  - reflexivity.
  - reflexivity.
  - by vm_compute.
  - eexists. split; [by vm_compute|]. repeat split; by vm_compute.
Qed.

(** C7 (argument forwarding), evaluated where the code departs from it.  For
    [std::string s{"x"}; pool.acquireObject(42, s)] the object is constructed
    in place at the slot returned, from the values 42 and "x"; but the
    constructor does not receive the caller's expressions: [s] has been
    copied once into the by-value parameter and both arguments arrive as
    xvalues. *)
Theorem arguments_passed_by_value :
  ∃ w', acquireObject construct_Probe (new_World bump0) args_42_x = Returned 4256 w'
    ∧ objects w' !! 4256
      = Some [MkArg (VInt 42) xvalue 0 0; MkArg (VString "x") xvalue 1 0]
    ∧ objects w' !! 4256 ≠ Some (perfectly_forwarded <$> args_42_x)
    ∧ (arg_value <$> [MkArg (VInt 42) xvalue 0 0; MkArg (VString "x") xvalue 1 0])
      = (arg_value <$> args_42_x).
Proof.
  eexists. split; [by vm_compute|]. split; [by vm_compute|]. split; by vm_compute.
Qed.

(** The scenario of the design document: seven acquisitions obtain chunks of 5
    and 10 slots and leave 8 slots free; once the seven handles are released,
    fifteen acquisitions are served without growth, and the sixteenth obtains
    a chunk of 20 slots. *)
Example seven_fifteen_sixteen :
  let acquire k := replicate k (Acquire args_42_x) in
  let release_all := Release <$> [4256; 4216; 4176; 4136; 4096; 4656; 4616] in
  (∃ w, run construct_Example (new_World bump0) (acquire 7%nat) = Some w
     ∧ allocated w = [(4096, 5); (4296, 10)]
     ∧ length (m_freeObjects (pool w)) = 8%nat)
  ∧ (∃ w, run construct_Example (new_World bump0)
            (acquire 7%nat ++ release_all ++ acquire 15%nat) = Some w
     ∧ allocated w = [(4096, 5); (4296, 10)]
     ∧ m_freeObjects (pool w) = []
     ∧ length (handles w) = 15%nat)
  ∧ (∃ w, run construct_Example (new_World bump0)
            (acquire 7%nat ++ release_all ++ acquire 16%nat) = Some w
     ∧ allocated w = [(4096, 5); (4296, 10); (4696, 20)]).
Proof.
  split; [|split]; eexists; (split; [by vm_compute|]); repeat split; by vm_compute.
Qed.

(** * Further properties of the pool and of its driver *)

Section Coverage.

Context {T V A : Type} `{Allocator A}.

Variable construct : list (Arg V) → option T.

Implicit Types (a : A) (p : ObjectPool A) (w : World T A) (args : list (Arg V)).

(** ** Chunks are kept *)

Lemma step_chunks_prefix w o w' :
  step construct w o = Some w' →
  m_pool (pool w) `prefix_of` m_pool (pool w')
  ∧ allocated w `prefix_of` allocated w'.
Proof.
  intros Hstep.
  assert (∀ w1, grow_if_empty w = Returned tt w1 →
            m_pool (pool w) `prefix_of` m_pool (pool w1)
            ∧ allocated w `prefix_of` allocated w1) as Hgrow.
  { intros w1 Hg. pose proof (grow_if_empty_spec w) as Hs. rewrite Hg in Hs.
    inversion Hs; subst; [done|]. simpl. split; by apply prefix_app_r. }
  destruct o as [args|object]; simpl in Hstep.
  - destruct (acquireObject_spec construct w args)
      as [w1 free' object v Hg _ _| |w1 free' object Hg _ _|];
      try discriminate; injection Hstep as <-; simpl; auto.
  - unfold deleter in Hstep.
    destruct (decide (object ∈ handles w)); [|done]. by injection Hstep as <-.
Qed.

(** X6 (chunks are kept): whatever the allocator and wherever a run of acquire
    and release operations starts, the chunk list and the record of the
    chunks obtained only grow at the end: no chunk is dropped, replaced or
    reordered before the pool is destroyed. *)
Theorem chunks_only_grow w ops w' :
  run construct w ops = Some w' →
  m_pool (pool w) `prefix_of` m_pool (pool w')
  ∧ allocated w `prefix_of` allocated w'.
Proof.
  revert w. induction ops as [|o ops IH]; intros w Hrun; simpl in Hrun.
  - by injection Hrun as <-.
  - destruct (step construct w o) as [w1|] eqn:Hstep; [|done].
    destruct (step_chunks_prefix w o w1 Hstep) as [Hp Ha].
    destruct (IH w1 Hrun) as [Hp' Ha']. split; by etrans.
Qed.

(** ** Every slot is free or handed out *)

Lemma all_slots_snoc (chunks : list (Z * Z)) c :
  all_slots (chunks ++ [c]) = all_slots chunks ++ iota c.1 c.2.
Proof. unfold all_slots. rewrite bind_app. simpl. by rewrite app_nil_r. Qed.

Lemma elem_of_all_slots (chunks : list (Z * Z)) x :
  x ∈ all_slots chunks ↔
  ∃ b c i, (b, c) ∈ chunks ∧ 0 ≤ i < c ∧ x = b + i * sizeof_value.
Proof.
  unfold all_slots. rewrite list_elem_of_bind. split.
  - intros ([b c] & Hx & Hin). apply elem_of_iota in Hx as (i & Hi & ->).
    by exists b, c, i.
  - intros (b & c & i & Hin & Hi & ->). exists (b, c). split; [|done].
    apply elem_of_iota. by exists i.
Qed.

Lemma partitioned_grow w r w1 :
  partitioned w → grow_if_empty w = Returned r w1 → partitioned w1.
Proof.
  intros [Hc Hperm] Hg. pose proof (grow_if_empty_spec w) as Hs. rewrite Hg in Hs.
  inversion Hs as [|b a' Hempty Halloc|]; subst; [done|].
  split; [by apply consistent_grown|]. simpl.
  rewrite all_slots_snoc. simpl.
  rewrite wrap_small by (rewrite (consistent_next w Hc); apply chunk_size_range).
  rewrite Hempty in Hperm. simpl in Hperm. rewrite Hperm.
  apply Permutation_app_comm.
Qed.

Lemma partitioned_step w o w' :
  partitioned w → step construct w o = Some w' → partitioned w'.
Proof.
  intros Hw Hstep. destruct o as [args|object]; simpl in Hstep.
  - destruct (acquireObject_spec construct w args)
      as [w1 free' object v Hg Hfree _| |w1 free' object Hg _ _|];
      try discriminate; injection Hstep as <-; [|done|].
    + destruct (partitioned_grow w tt w1 Hw Hg) as [Hc Hperm].
      split; [by apply consistent_taken|]. simpl.
      rewrite <-Hperm, Hfree, <-(assoc_L (++)). f_equiv.
      apply Permutation_app_comm.
    + by apply (partitioned_grow w tt).
  - destruct Hw as [Hc Hperm].
    pose proof (consistent_deleter w object w' Hc Hstep) as Hc'.
    unfold deleter in Hstep.
    destruct (decide (object ∈ handles w)) as [Hin|]; [|done].
    injection Hstep as <-. split; [done|]. simpl.
    rewrite <-Hperm, <-(assoc_L (++)). f_equiv. simpl.
    symmetry. by apply drop_handle_Permutation.
Qed.

(** X2 (slot partition): whatever the allocator, in every world that a
    sequence of acquire and release operations reaches from a new pool, the
    free slots together with the addresses of the outstanding handles are,
    counted with multiplicity, exactly the slots of the chunks obtained: no
    slot is lost, none is invented, and each address in the free list or
    behind a handle is the i-th slot of one of the chunks. *)
Theorem slots_partitioned a ops w :
  run construct (new_World a) ops = Some w →
  m_freeObjects (pool w) ++ handles w ≡ₚ all_slots (allocated w)
  ∧ ∀ x, x ∈ m_freeObjects (pool w) ++ handles w →
      ∃ b c i, (b, c) ∈ allocated w ∧ 0 ≤ i < c ∧ x = b + i * sizeof_value.
Proof.
  intros Hrun.
  assert (partitioned w) as [_ Hperm].
  { apply (run_invariant construct (λ w, partitioned w) partitioned_step ops
             (new_World a)); [|done].
    split; [apply consistent_new | done]. }
  split; [done|]. intros x Hx. apply elem_of_all_slots. by rewrite <-Hperm.
Qed.

(** ** The free list is a stack *)

Lemma run_releases hs : ∀ w w1,
  run construct w (Release <$> hs) = Some w1 →
  m_freeObjects (pool w1) = m_freeObjects (pool w) ++ hs
  ∧ m_pool (pool w1) = m_pool (pool w)
  ∧ m_newChunkSize (pool w1) = m_newChunkSize (pool w)
  ∧ allocated w1 = allocated w.
Proof.
  induction hs as [|h hs IH]; intros w w1 Hrun; simpl in Hrun.
  - injection Hrun as <-. by rewrite app_nil_r.
  - destruct (deleter w h) as [w0|] eqn:Hdel; [|done].
    destruct (IH w0 w1 Hrun) as (Hfree & Hpool & Hsize & Hlog).
    unfold deleter in Hdel. destruct (decide (h ∈ handles w)); [|done].
    injection Hdel as <-. simpl in *.
    by rewrite Hfree, <-(assoc_L (++)).
Qed.

Lemma acquire_all_stack argss : ∀ w free hs,
  m_freeObjects (pool w) = free ++ hs →
  length argss = length hs →
  Forall (λ args, is_Some (construct (forward <$> (bind_by_value <$> args)))) argss →
  ∃ w', acquire_all construct w argss = Some (reverse hs, w')
    ∧ m_freeObjects (pool w') = free
    ∧ m_pool (pool w') = m_pool (pool w)
    ∧ m_newChunkSize (pool w') = m_newChunkSize (pool w)
    ∧ allocated w' = allocated w.
Proof.
  induction argss as [|args argss IH]; intros w free hs Hfree Hlen Hok.
  - destruct hs; [|done]. exists w. by rewrite app_nil_r in Hfree.
  - apply Forall_cons in Hok as [[v Hv] Hok].
    destruct (decide (hs = [])) as [->|Hne]; [done|].
    apply exists_last in Hne as (hs' & h & ->).
    rewrite length_app in Hlen. simpl in Hlen.
    rewrite (assoc_L (++)) in Hfree. simpl.
    rewrite (acquire_last construct w (free ++ hs') h args v Hfree Hv).
    destruct (IH (taken w (free ++ hs') h v) free hs')
      as (w' & Hall & Hfree' & Hpool & Hsize & Hlog); [done | lia | done |].
    exists w'. rewrite Hall, reverse_snoc. done.
Qed.

(** X11 (the free list is a stack): whatever the allocator and the world,
    when handles are released one after the other and then as many objects
    are acquired, the constructors succeeding, the acquisitions return the
    released slots in the reverse order of their release, no chunk is
    obtained, and the free list, the chunk list and the size for the next
    chunk are as they were before the releases. *)
Theorem release_then_acquire_reverses w hs w1 argss :
  run construct w (Release <$> hs) = Some w1 →
  length argss = length hs →
  Forall (λ args, is_Some (construct (forward <$> (bind_by_value <$> args)))) argss →
  ∃ w2, acquire_all construct w1 argss = Some (reverse hs, w2)
    ∧ m_freeObjects (pool w2) = m_freeObjects (pool w)
    ∧ m_pool (pool w2) = m_pool (pool w)
    ∧ m_newChunkSize (pool w2) = m_newChunkSize (pool w)
    ∧ allocated w2 = allocated w.
Proof.
  intros Hrun Hlen Hok.
  destruct (run_releases hs w w1 Hrun) as (Hfree & Hpool & Hsize & Hlog).
  destruct (acquire_all_stack argss w1 (m_freeObjects (pool w)) hs Hfree Hlen Hok)
    as (w2 & Hall & Hfree2 & Hpool2 & Hsize2 & Hlog2).
  exists w2. split; [done|]. split; [done|].
  by rewrite Hpool2, Hsize2, Hlog2.
Qed.

(** ** With a lawful allocator *)

Section CoverageLawful.

Context `{!LawfulAllocator A}.

Lemma elem_of_drop_handle object (hs : list Z) x :
  NoDup hs → object ∈ hs → x ∈ drop_handle object hs ↔ x ∈ hs ∧ x ≠ object.
Proof.
  intros Hnd Hin. pose proof (drop_handle_Permutation object hs Hin) as Hperm.
  rewrite Hperm in Hnd. apply NoDup_cons in Hnd as [Hnotin _].
  rewrite Hperm at 2. rewrite elem_of_cons. split.
  - intros Hx. split; [by right|]. by intros ->.
  - by intros [[->|Hx] Hne].
Qed.

Lemma drop_handle_snoc object (hs : list Z) :
  object ∉ hs → drop_handle object (hs ++ [object]) = hs.
Proof.
  induction hs as [|h hs IH]; intros Hnotin; simpl.
  - by rewrite decide_True.
  - apply not_elem_of_cons in Hnotin as [Hne Hnotin].
    rewrite decide_False by done. f_equal. by apply IH.
Qed.

Lemma well_new a : well (new_World (T:=T) a).
Proof.
  split; [apply sound_new|]. intros x. simpl. rewrite lookup_empty. split.
  - by intros [? ?].
  - by intros ?%elem_of_nil.
Qed.

Lemma well_grow w r w1 :
  well w → grow_if_empty w = Returned r w1 → well w1.
Proof.
  intros [Hs Ht] Hg. split; [by apply (sound_grow w r)|].
  pose proof (grow_if_empty_spec w) as Hspec. rewrite Hg in Hspec.
  by inversion Hspec; subst.
Qed.

Lemma well_taken w free' object v :
  well w → m_freeObjects (pool w) = free' ++ [object] →
  well (taken w free' object v).
Proof.
  intros [Hs Ht] Hfree. split; [by apply sound_taken|].
  intros x. simpl. rewrite lookup_insert_is_Some, elem_of_app, list_elem_of_singleton.
  rewrite (Ht x). split.
  - intros [->|[_ Hx]]; [by right | by left].
  - intros [Hx| ->]; [|by left].
    destruct (decide (object = x)) as [->|Hne]; [by left | by right].
Qed.

Lemma well_deleter w object w' :
  well w → deleter w object = Some w' → well w'.
Proof.
  intros [Hs Ht] Hdel. split; [by apply (sound_deleter w object)|].
  destruct Hs as [_ Hnd _ _]. apply NoDup_app in Hnd as (_ & _ & Hnd).
  unfold deleter in Hdel.
  destruct (decide (object ∈ handles w)) as [Hin|]; [|done].
  injection Hdel as <-. intros x. simpl.
  rewrite lookup_delete_is_Some, elem_of_drop_handle, (Ht x) by done.
  split; intros [? ?]; split; done.
Qed.

Lemma well_step w o w' :
  well w → step construct w o = Some w' → well w'.
Proof.
  intros Hw Hstep. destruct o as [args|object]; simpl in Hstep.
  - destruct (acquireObject_spec construct w args)
      as [w1 free' object v Hg Hfree _| |w1 free' object Hg _ _|];
      try discriminate; injection Hstep as <-; [|done|].
    + apply well_taken; [|done]. by apply (well_grow w tt).
    + by apply (well_grow w tt).
  - by apply (well_deleter w object).
Qed.

Lemma well_run a ops w :
  run construct (new_World a) ops = Some w → well w.
Proof.
  apply (run_invariant construct (λ w, well w)); [apply well_step | apply well_new].
Qed.

(** X3 (objects and handles): with a lawful allocator, in every world that a
    sequence of acquire and release operations reaches from a new pool, an
    object is constructed at an address exactly when a handle on that address
    is outstanding; in particular no free slot holds an object. *)
Theorem objects_where_handles a ops w :
  run construct (new_World a) ops = Some w →
  (∀ x, is_Some (objects w !! x) ↔ x ∈ handles w)
  ∧ ∀ x, x ∈ m_freeObjects (pool w) → objects w !! x = None.
Proof.
  intros Hrun. destruct (well_run a ops w Hrun) as [[_ Hnd _ _] Ht].
  split; [done|]. intros x Hx. apply eq_None_not_Some. rewrite (Ht x).
  apply NoDup_app in Hnd as (_ & Hdisj & _). by apply Hdisj.
Qed.

(** X4 (live objects are left alone): with a lawful allocator, an operation
    other than the release of the handle on [x] keeps that handle outstanding
    and the object behind it as it is: no acquisition constructs over a live
    object, and no release destroys another handle's object. *)
Theorem live_object_untouched a ops w o w' x :
  run construct (new_World a) ops = Some w →
  x ∈ handles w →
  o ≠ Release x →
  step construct w o = Some w' →
  x ∈ handles w' ∧ objects w' !! x = objects w !! x.
Proof.
  intros Hrun Hx Hne Hstep. pose proof (sound_run construct a ops w Hrun) as Hs.
  assert (∀ w1 r, grow_if_empty w = Returned r w1 →
            handles w1 = handles w ∧ objects w1 = objects w) as Hsame.
  { intros w1 r Hg. pose proof (grow_if_empty_spec w) as Hspec.
    rewrite Hg in Hspec. by inversion Hspec; subst. }
  destruct o as [args|object]; simpl in Hstep.
  - destruct (acquireObject_spec construct w args)
      as [w1 free' object v Hg Hfree _| |w1 free' object Hg _ _|];
      try discriminate; injection Hstep as <-; [|done|].
    + destruct (Hsame w1 tt Hg) as [Hh Ho]. simpl. rewrite Hh, Ho.
      split; [apply elem_of_app; by left|].
      apply lookup_insert_ne. intros ->.
      destruct (sound_grow w tt w1 Hs Hg) as [_ Hnd _ _].
      apply NoDup_app in Hnd as (_ & Hdisj & _).
      apply (Hdisj x); [|by rewrite Hh].
      rewrite Hfree. apply elem_of_app. right. by apply list_elem_of_singleton.
    + destruct (Hsame w1 tt Hg) as [Hh Ho]. by rewrite Hh, Ho.
  - destruct Hs as [_ Hnd _ _]. apply NoDup_app in Hnd as (_ & _ & Hnd).
    unfold deleter in Hstep.
    destruct (decide (object ∈ handles w)) as [Hin|]; [|done].
    injection Hstep as <-. simpl.
    assert (object ≠ x) as Hox by (intros ->; done).
    split; [by apply elem_of_drop_handle | by apply lookup_delete_ne].
Qed.

(** X5 (acquire, then release): with a lawful allocator, releasing the handle
    that an acquisition has just returned gives back the world as it was when
    the slot was chosen, that is after the growth if the acquisition had to
    grow the pool and the world before the acquisition otherwise. *)
Theorem acquire_release_round_trip a ops w args object w1 :
  run construct (new_World a) ops = Some w →
  acquireObject construct w args = Returned object w1 →
  ∃ w2, deleter w1 object = Some w2
    ∧ grow_if_empty w = Returned tt w2
    ∧ (m_freeObjects (pool w) ≠ [] → w2 = w).
Proof.
  intros Hrun Hacq. pose proof (well_run a ops w Hrun) as Hw.
  pose proof (acquireObject_spec construct w args) as Hspec.
  rewrite Hacq in Hspec.
  inversion Hspec as [w0 free' ? v Hg Hfree _| | |]; subst.
  destruct (well_grow w tt w0 Hw Hg) as [[_ Hnd _ _] Ht].
  assert (object ∉ handles w0) as Hnotin.
  { apply NoDup_app in Hnd as (_ & Hdisj & _). apply Hdisj.
    rewrite Hfree. apply elem_of_app. right. by apply list_elem_of_singleton. }
  exists w0. split; [|split; [done|]].
  - unfold deleter. simpl. rewrite decide_True
      by (apply elem_of_app; right; by apply list_elem_of_singleton).
    rewrite drop_handle_snoc by done. rewrite delete_insert_id
      by (apply eq_None_not_Some; by rewrite (Ht object)).
    rewrite <-Hfree. by destruct w0 as [[] ? ? ?].
  - intros Hne. rewrite grow_if_empty_idle in Hg by done. by injection Hg.
Qed.

(** ** How many chunks a number of live objects takes *)

Lemma acquire_all_run argss : ∀ w objs w',
  acquire_all construct w argss = Some (objs, w') →
  run construct w (Acquire <$> argss) = Some w'
  ∧ handles w' = handles w ++ objs
  ∧ length objs = length argss.
Proof.
  induction argss as [|args argss IH]; intros w objs w' Hall; simpl in Hall.
  - injection Hall as <- <-. by rewrite app_nil_r.
  - pose proof (acquireObject_spec construct w args) as Hspec. simpl.
    destruct (acquireObject construct w args) as [object w1| |] eqn:Hacq;
      [|done|done].
    destruct (acquire_all construct w1 argss) as [[objs' w'']|] eqn:Hrest;
      [|done].
    injection Hall as <- <-.
    destruct (IH w1 objs' w'' Hrest) as (Hrun & Hh & Hlen).
    split; [done|]. split; [|by simpl; f_equal].
    rewrite Hh. inversion Hspec as [w0 free' ? v Hg _ _| | |]; subst. simpl.
    pose proof (grow_if_empty_spec w) as Hgs. rewrite Hg in Hgs.
    inversion Hgs; subst; simpl; by rewrite <-(assoc_L (++)).
Qed.

Lemma snug_acquire w args object w' :
  sound w → snug w →
  acquireObject construct w args = Returned object w' → snug w'.
Proof.
  intros Hs Hsnug Hacq.
  pose proof (acquireObject_spec construct w args) as Hspec.
  rewrite Hacq in Hspec.
  inversion Hspec as [w0 free' ? v Hg Hfree _| | |]; subst.
  pose proof (grow_if_empty_spec w) as Hgs. rewrite Hg in Hgs.
  inversion Hgs as [Hne|b a' Hempty Halloc|]; subst.
  - apply (f_equal length) in Hfree. rewrite length_app in Hfree. simpl in Hfree.
    destruct Hsnug as [Hzero|Hlt]; [by left | right].
    unfold growth_events in *. simpl. lia.
  - right. destruct Hs as [Hc _ _ Hfits].
    assert (0 ≤ growth_events w) by (unfold growth_events; lia).
    assert (growth_events (taken (grown w b a') free' object v)
            = growth_events w + 1) as ->.
    { unfold growth_events. simpl. rewrite length_app. simpl. lia. }
    simpl in Hfree. apply (f_equal length) in Hfree.
    rewrite length_iota, length_app in Hfree. simpl in Hfree.
    rewrite (next_size_fits w Hc Hfits) in Hfree.
    assert (0 < 2 ^ growth_events w) by (by apply Z.pow_pos_nonneg).
    rewrite wrap_small in Hfree by (unfold ms_initialChunkSize in *; lia).
    replace (growth_events w + 1 - 1) with (growth_events w) by lia.
    simpl. unfold ms_initialChunkSize in *. lia.
Qed.

Lemma snug_acquire_all argss : ∀ w objs w',
  sound w → snug w →
  acquire_all construct w argss = Some (objs, w') → sound w' ∧ snug w'.
Proof.
  induction argss as [|args argss IH]; intros w objs w' Hs Hsnug Hall;
    simpl in Hall.
  - by injection Hall as <- <-.
  - pose proof (sound_acquire construct w args Hs) as Hs1.
    destruct (acquireObject construct w args) as [object w1| |] eqn:Hacq;
      [|done|done].
    destruct (acquire_all construct w1 argss) as [[objs' w'']|] eqn:Hrest;
      [|done].
    injection Hall as <- <-. apply (IH w1 objs' w''); [done| |done].
    by apply (snug_acquire w args object).
Qed.

(** X7 (chunks needed): with a lawful allocator, when [k] objects are
    acquired from a new pool and none is released, the addresses returned are
    pairwise distinct and the number [n] of chunks obtained is the least one
    whose total capacity [5 * (2^n - 1)] holds [k] objects: the allocator is
    called a logarithmic number of times, and the capacity obtained is at
    most [2 * k + 3]. *)
Theorem chunks_for_live_objects a argss objs w :
  acquire_all construct (new_World a) argss = Some (objs, w) →
  let k := Z.of_nat (length argss) in
  let n := growth_events w in
  handles w = objs
  ∧ NoDup objs
  ∧ length objs = length argss
  ∧ k ≤ ms_initialChunkSize * (2 ^ n - 1)
  ∧ (k = 0 → n = 0)
  ∧ (0 < k → 1 ≤ n ∧ ms_initialChunkSize * (2 ^ (n - 1) - 1) < k)
  ∧ total_capacity (allocated w) ≤ 2 * k + 3.
Proof.
  intros Hall k n.
  destruct (acquire_all_run argss _ _ _ Hall) as (Hrun & Hh & Hlen).
  simpl in Hh.
  destruct (snug_acquire_all argss (new_World a) objs w (sound_new a)
              ltac:(by left) Hall) as [Hs Hsnug].
  destruct Hs as [Hc Hnd _ Hfits].
  pose proof (consistent_count w Hc) as Hcount.
  rewrite (total_capacity_fits w Hc Hfits). fold n.
  rewrite (total_capacity_fits w Hc Hfits), Hh, Hlen in Hcount. fold n k in Hcount.
  assert (0 ≤ n) as Hn by (unfold n, growth_events; lia).
  split; [done|]. split; [rewrite <-Hh; by apply NoDup_app in Hnd as (_ & _ & ?)|].
  split; [done|]. split; [lia|].
  assert (n = 0 → k = 0) as Hzero.
  { intros Hn0. rewrite Hn0 in Hcount. simpl in Hcount.
    unfold ms_initialChunkSize in *. lia. }
  destruct Hsnug as [Hn0|Hlt]; fold n in Hn0 || fold n in Hlt.
  - specialize (Hzero Hn0). rewrite Hn0. split; [done|]. split; [lia|].
    simpl. unfold ms_initialChunkSize. lia.
  - destruct (decide (n = 0)) as [Hn0|Hn1].
    { specialize (Hzero Hn0). rewrite Hn0. split; [done|]. split; [lia|].
      simpl. unfold ms_initialChunkSize. lia. }
    assert (2 ^ n = 2 * 2 ^ (n - 1)) as Hpow.
    { rewrite <-Z.pow_succ_r by lia. f_equal. lia. }
    unfold ms_initialChunkSize in *.
    split; [intros Hk; subst k; lia|]. split; [intros Hk; split; lia | lia].
Qed.

(** ** Giving everything back *)

Lemma release_all hs : ∀ w,
  hs ≡ₚ handles w →
  ∃ w', run construct w (Release <$> hs) = Some w'
    ∧ handles w' = []
    ∧ m_freeObjects (pool w') = m_freeObjects (pool w) ++ hs
    ∧ allocated w' = allocated w.
Proof.
  induction hs as [|h hs IH]; intros w Hperm.
  - exists w. symmetry in Hperm. apply Permutation_nil_r in Hperm.
    by rewrite app_nil_r.
  - assert (h ∈ handles w) as Hin by (rewrite <-Hperm; by left).
    simpl. unfold deleter. rewrite decide_True by done.
    set (w1 := MkWorld _ _ _ _).
    destruct (IH w1) as (w' & Hrun & Hh & Hfree & Hlog).
    { simpl. apply (Permutation_cons_inv (a:=h)).
      by rewrite Hperm, <-drop_handle_Permutation. }
    exists w'. split; [done|]. split; [done|]. split; [|done].
    rewrite Hfree. simpl. by rewrite <-(assoc_L (++)).
Qed.

(** A pool whose slots are all free passes the assertion of the destructor
    and gives back every chunk as it was obtained. *)
Lemma destroy_all_free w :
  sound w → handles w = [] →
  ∃ a', destroy_ObjectPool (pool w) = Some (allocated w, a').
Proof.
  intros [Hc _ _ Hfits] Hnone.
  pose proof (consistent_count w Hc) as Hcount.
  pose proof (consistent_chunks w Hc) as Hchunks.
  pose proof (consistent_capacities w Hc) as Hcaps.
  assert (Z.of_nat (length (m_pool (pool w))) = growth_events w) as Hlen.
  { unfold growth_events. by rewrite Hchunks, length_fmap. }
  assert (0 ≤ growth_events w) as Hev0 by (unfold growth_events; lia).
  pose proof (fits_at_most_61 _ Hev0 Hfits) as H61.
  rewrite (total_capacity_fits w Hc Hfits), Hnone in Hcount. simpl in Hcount.
  rewrite Z.add_0_r in Hcount.
  unfold destroy_ObjectPool, teardown_check.
  rewrite Hlen, Hcount, sizes_agree_all_free by lia.
  pose proof (deallocate_chunks_calls (allocated w) (m_allocator (pool w)) 0) as Hd.
  rewrite <-Hchunks in Hd.
  destruct (deallocate_chunks _ _ _) as [calls a'] eqn:Hcalls.
  exists a'. do 2 f_equal. apply Hd; [done|]. by rewrite Hcaps.
Qed.

(** X8 (release everything, then destroy): with a lawful allocator, from
    every world that a sequence of acquire and release operations reaches
    from a new pool, releasing the outstanding handles in any order leaves no
    handle and no constructed object, puts the released slots at the back of
    the free list in the order of release, and makes the pool destroyable:
    the assertion holds and every chunk is given back as it was obtained. *)
Theorem release_all_then_destroy a ops w hs :
  run construct (new_World a) ops = Some w →
  hs ≡ₚ handles w →
  ∃ w' a', run construct w (Release <$> hs) = Some w'
    ∧ handles w' = []
    ∧ objects w' = ∅
    ∧ m_freeObjects (pool w') = m_freeObjects (pool w) ++ hs
    ∧ destroy_ObjectPool (pool w') = Some (allocated w, a').
Proof.
  intros Hrun Hperm.
  destruct (release_all hs w Hperm) as (w' & Hrel & Hh & Hfree & Hlog).
  assert (well w') as [Hs Ht].
  { apply (well_run a (ops ++ (Release <$> hs))).
    by rewrite run_app, Hrun. }
  destruct (destroy_all_free w' Hs Hh) as (a' & Hdestroy).
  exists w', a'. split; [done|]. split; [done|]. split; [|split; [done|]].
  - apply map_empty. intros x. apply eq_None_not_Some. rewrite (Ht x), Hh.
    by intros ?%elem_of_nil.
  - by rewrite <-Hlog.
Qed.

(** X9 (move, then destroy both): with a lawful allocator, when a pool with
    no outstanding handle is moved, destroying the new pool gives back every
    chunk as it was obtained, and destroying the moved-from pool passes its
    assertion and gives back nothing: each chunk is deallocated once. *)
Theorem move_then_destroy a ops w :
  run construct (new_World a) ops = Some w →
  handles w = [] →
  ∃ a',
    destroy_ObjectPool (move_ObjectPool (pool w)).1 = Some (allocated w, a')
    ∧ destroy_ObjectPool (move_ObjectPool (pool w)).2
      = Some ([], m_allocator (pool w)).
Proof.
  intros Hrun Hnone.
  destruct (destroy_all_free w (sound_run construct a ops w Hrun) Hnone)
    as (a' & Hdestroy).
  exists a'. split; [by destruct (pool w)|]. by destruct (pool w).
Qed.

End CoverageLawful.

End Coverage.

(** ** The benchmark loop *)

Section Benchmark.

Context {A : Type} `{Allocator A}.

Implicit Types (a : A) (w : World ExpensiveObject A).

Lemma iota_five b : iota b 5 = iota b 4 ++ [b + 4 * sizeof_value].
Proof. by apply (iota_snoc b 4). Qed.

Lemma give_back_last b a' :
  deleter
    (taken (settled b a') (iota b 4) (b + 4 * sizeof_value) an_ExpensiveObject)
    (b + 4 * sizeof_value)
  = Some (settled b a').
Proof.
  unfold deleter. simpl. rewrite decide_True by (by apply list_elem_of_singleton).
  rewrite decide_True by done.
  rewrite delete_insert_id by apply lookup_empty. reflexivity.
Qed.

Lemma first_iteration a b a' :
  allocate a ms_initialChunkSize = Some (b, a') →
  getExpensiveObject (new_World a)
  = Returned (b + 4 * sizeof_value)
      (taken (settled b a') (iota b 4) (b + 4 * sizeof_value) an_ExpensiveObject).
Proof.
  intros Halloc. unfold getExpensiveObject, acquireObject.
  assert (grow_if_empty (new_World a) = Returned tt (settled b a')) as ->.
  { unfold grow_if_empty. cbn [new_World pool m_freeObjects new_ObjectPool].
    by rewrite (addChunk_empty (new_ObjectPool a) b a'). }
  cbn [settled pool m_freeObjects].
  by rewrite iota_five, last_snoc, removelast_last.
Qed.

Lemma later_iteration b a' :
  getExpensiveObject (settled b a')
  = Returned (b + 4 * sizeof_value)
      (taken (settled b a') (iota b 4) (b + 4 * sizeof_value) an_ExpensiveObject).
Proof.
  unfold getExpensiveObject.
  apply (acquire_last construct_ExpensiveObject (settled b a')); [|done].
  apply iota_five.
Qed.

Lemma pool_loop_settled iterations b a' :
  pool_loop iterations (settled b a') = Returned tt (settled b a').
Proof.
  induction iterations as [|n IH]; [done|].
  cbn [pool_loop]. by rewrite later_iteration, give_back_last.
Qed.

(** X10 (the benchmark loop): when the allocator provides the first chunk of
    five objects, the pool loop of [main], for any positive number of
    iterations and so for its 500000, obtains that one chunk and nothing
    more: every iteration constructs its object in the same slot, the last
    one of the chunk, and after the loop the five slots are free, no handle
    and no object is left, and the destructor passes its assertion and gives
    the chunk back with size 5. *)
Theorem pool_loop_uses_one_chunk a b a' iterations :
  allocate a ms_initialChunkSize = Some (b, a') →
  getExpensiveObject (new_World a)
    = Returned (b + 4 * sizeof_value)
        (taken (settled b a') (iota b 4) (b + 4 * sizeof_value) an_ExpensiveObject)
  ∧ getExpensiveObject (settled b a')
    = Returned (b + 4 * sizeof_value)
        (taken (settled b a') (iota b 4) (b + 4 * sizeof_value) an_ExpensiveObject)
  ∧ pool_loop (S iterations) (new_World a) = Returned tt (settled b a')
  ∧ pool_loop (Z.to_nat NumberOfIterations) (new_World a)
    = Returned tt (settled b a')
  ∧ destroy_ObjectPool (pool (settled (T:=ExpensiveObject) b a'))
    = Some ([(b, 5)], deallocate a' b 5).
Proof.
  intros Halloc.
  assert (∀ n, pool_loop (S n) (new_World a) = Returned tt (settled b a'))
    as Hloop.
  { intros n. cbn [pool_loop].
    rewrite (first_iteration a b a' Halloc), give_back_last.
    apply pool_loop_settled. }
  split; [by apply first_iteration|]. split; [apply later_iteration|].
  split; [apply Hloop|]. split; [|done].
  destruct (Z.to_nat NumberOfIterations) as [|n] eqn:Hn; [|apply Hloop].
  unfold NumberOfIterations in Hn. lia.
Qed.

End Benchmark.

(** The further properties at work on the bump allocator and the arena. *)

Lemma acquire_defined_witness :
  ∃ w, run construct_Example (new_World bump0) seven_then_two = Some w
    ∧ acquireObject construct_Example w args_42_x ≠ Undefined.
Proof.
  assert (∃ w, run construct_Example (new_World bump0) seven_then_two = Some w)
    as [w Hw] by (eexists; by vm_compute).
  exists w. split; [exact Hw|].
  exact (acquire_defined construct_Example bump0 seven_then_two w args_42_x Hw).
Defined.

Lemma chunks_only_grow_witness :
  ∃ w', run construct_Example (new_World bump0) seven_then_two = Some w'
    ∧ [] `prefix_of` m_pool (pool w')
    ∧ [] `prefix_of` allocated w'.
Proof.
  assert (∃ w, run construct_Example (new_World bump0) seven_then_two = Some w)
    as [w Hw] by (eexists; by vm_compute).
  exists w. split; [exact Hw|].
  exact (chunks_only_grow construct_Example (new_World bump0) seven_then_two w Hw).
Defined.

Lemma slots_partitioned_witness :
  ∃ w, run construct_Example (new_World bump0) seven_then_two = Some w
    ∧ m_freeObjects (pool w) ++ handles w ≡ₚ all_slots (A:=Bump) (allocated w).
Proof.
  assert (∃ w, run construct_Example (new_World bump0) seven_then_two = Some w)
    as [w Hw] by (eexists; by vm_compute).
  exists w. split; [exact Hw|].
  exact (proj1 (slots_partitioned construct_Example bump0 seven_then_two w Hw)).
Defined.

Lemma objects_where_handles_witness :
  ∃ w, run construct_Example (new_World bump0) seven_then_two = Some w
    ∧ ∀ x, x ∈ m_freeObjects (pool w) → objects w !! x = None.
Proof.
  assert (∃ w, run construct_Example (new_World bump0) seven_then_two = Some w)
    as [w Hw] by (eexists; by vm_compute).
  exists w. split; [exact Hw|].
  exact (proj2 (objects_where_handles construct_Example bump0 seven_then_two w Hw)).
Defined.

Lemma live_object_untouched_witness :
  ∃ w w',
    run construct_Example (new_World bump0) [Acquire args_42_x; Acquire args_42_x]
      = Some w
    ∧ step construct_Example w (Acquire args_42_x) = Some w'
    ∧ 4256 ∈ handles w'
    ∧ objects w' !! 4256 = objects w !! 4256.
Proof.
  assert (∃ w w',
    run construct_Example (new_World bump0) [Acquire args_42_x; Acquire args_42_x]
      = Some w
    ∧ 4256 ∈ handles w
    ∧ step construct_Example w (Acquire args_42_x) = Some w')
    as (w & w' & Hw & Hin & Hstep).
  { eexists. eexists. split; [by vm_compute|]. split; [by left | by vm_compute]. }
  exists w, w'. split; [exact Hw|]. split; [exact Hstep|].
  apply (live_object_untouched construct_Example bump0
           [Acquire args_42_x; Acquire args_42_x] w (Acquire args_42_x) w' 4256 Hw Hin);
    [discriminate | exact Hstep].
Defined.

Lemma acquire_release_round_trip_witness :
  ∃ w w1 w2,
    run construct_Example (new_World bump0) [Acquire args_42_x] = Some w
    ∧ acquireObject construct_Example w args_42_x = Returned 4216 w1
    ∧ deleter w1 4216 = Some w2
    ∧ w2 = w.
Proof.
  assert (∃ w w1,
    run construct_Example (new_World bump0) [Acquire args_42_x] = Some w
    ∧ acquireObject construct_Example w args_42_x = Returned 4216 w1
    ∧ m_freeObjects (pool w) ≠ [])
    as (w & w1 & Hw & Hacq & Hne).
  { eexists. eexists. split; [by vm_compute|]. split; by vm_compute. }
  destruct (acquire_release_round_trip construct_Example bump0
              [Acquire args_42_x] w args_42_x 4216 w1 Hw Hacq)
    as (w2 & Hdel & _ & Hsame).
  exists w, w1, w2. split; [exact Hw|]. split; [exact Hacq|].
  split; [exact Hdel | exact (Hsame Hne)].
Defined.

Lemma chunks_for_live_objects_witness :
  ∃ objs w,
    acquire_all construct_Example (new_World bump0) (replicate 7 args_42_x)
      = Some (objs, w)
    ∧ NoDup objs
    ∧ 7 ≤ ms_initialChunkSize * (2 ^ growth_events w - 1).
Proof.
  assert (∃ objs w,
    acquire_all construct_Example (new_World bump0) (replicate 7 args_42_x)
      = Some (objs, w)) as (objs & w & Hall).
  { eexists. eexists. by vm_compute. }
  destruct (chunks_for_live_objects construct_Example bump0
              (replicate 7 args_42_x) objs w Hall)
    as (_ & Hnd & _ & Hle & _).
  exists objs, w. split; [exact Hall|]. split; [exact Hnd | exact Hle].
Defined.

Lemma release_all_then_destroy_witness :
  ∃ w w' a',
    run construct_Example (new_World bump0) [Acquire args_42_x; Acquire args_42_x]
      = Some w
    ∧ run construct_Example w [Release 4216; Release 4256] = Some w'
    ∧ destroy_ObjectPool (pool w') = Some (allocated w, a').
Proof.
  assert (∃ w,
    run construct_Example (new_World bump0) [Acquire args_42_x; Acquire args_42_x]
      = Some w
    ∧ [4216; 4256] ≡ₚ handles w) as (w & Hw & Hperm).
  { eexists. split; [by vm_compute | apply Permutation_swap]. }
  destruct (release_all_then_destroy construct_Example bump0
              [Acquire args_42_x; Acquire args_42_x] w [4216; 4256] Hw Hperm)
    as (w' & a' & Hrun & _ & _ & _ & Hdestroy).
  exists w, w', a'. split; [exact Hw|]. split; [exact Hrun | exact Hdestroy].
Defined.

Lemma move_then_destroy_witness :
  ∃ w a',
    run construct_Example (new_World bump0) one_cycle = Some w
    ∧ destroy_ObjectPool (move_ObjectPool (pool w)).1 = Some (allocated w, a')
    ∧ destroy_ObjectPool (move_ObjectPool (pool w)).2
      = Some ([], m_allocator (pool w)).
Proof.
  assert (∃ w, run construct_Example (new_World bump0) one_cycle = Some w
            ∧ handles w = []) as (w & Hw & Hnone).
  { eexists. split; by vm_compute. }
  destruct (move_then_destroy construct_Example bump0 one_cycle w Hw Hnone)
    as (a' & Hnew & Hold).
  exists w, a'. split; [exact Hw|]. split; [exact Hnew | exact Hold].
Defined.

Lemma pool_loop_uses_one_chunk_witness :
  pool_loop (Z.to_nat NumberOfIterations) (new_World arena0)
  = Returned tt (settled 65536 (MkArena (65536 + 5 * sizeof_ExpensiveObject))).
Proof.
  edestruct (pool_loop_uses_one_chunk arena0 65536
               (MkArena (65536 + 5 * sizeof_ExpensiveObject)) 0)
    as (_ & _ & _ & Hloop & _); [reflexivity|].
  exact Hloop.
Defined.

Lemma release_then_acquire_reverses_witness :
  ∃ w w1 w2,
    run construct_Example (new_World bump0) [Acquire args_42_x; Acquire args_42_x]
      = Some w
    ∧ run construct_Example w [Release 4256; Release 4216] = Some w1
    ∧ acquire_all construct_Example w1 [args_42_x; args_42_x]
      = Some ([4216; 4256], w2).
Proof.
  assert (∃ w w1,
    run construct_Example (new_World bump0) [Acquire args_42_x; Acquire args_42_x]
      = Some w
    ∧ run construct_Example w (Release <$> [4256; 4216]) = Some w1)
    as (w & w1 & Hw & Hrel).
  { eexists. eexists. split; by vm_compute. }
  destruct (release_then_acquire_reverses construct_Example w [4256; 4216] w1
              [args_42_x; args_42_x] Hrel eq_refl)
    as (w2 & Hall & _).
  { repeat (apply Forall_cons; split; [by eexists|]). apply Forall_nil_2. }
  exists w, w1, w2. split; [exact Hw|]. split; [exact Hrel | exact Hall].
Defined.

(** * A pool of 53 chunks

    Past 52 chunks the assertion of the destructor compares rounded numbers.
    The run below fills 53 chunks and then releases every handle but one; it
    is followed symbolically, its lists are far too long to be computed. *)

Section LongRuns.

Context {T V A : Type} `{Allocator A}.

Variable construct : list (Arg V) → option T.

Implicit Types (a : A) (w : World T A) (args : list (Arg V)).





End LongRuns.


